(** * Zsh completion helper for Meson build options

    A shallow embedding of [data/shell-completions/zsh/meson-comp-helper.py]
    and the properties of its escaping, hint, grouping and failure paths. *)

From Stdlib Require Import List NArith ZArith Bool Lia String Ascii Permutation.
Import ListNotations.

Set Implicit Arguments.

(** ** Python strings

    A Python [str] is a sequence of Unicode code points. *)

Definition char := N.
Definition str := list char.

(** An ASCII literal of the source, as a [str]. *)
Definition lit (s : string) : str := map N_of_ascii (list_ascii_of_string s).

(** [a == b] *)
Fixpoint str_eqb (a b : str) : bool :=
  match a, b with
  | [], [] => true
  | x :: a', y :: b' => (x =? y)%N && str_eqb a' b'
  | _, _ => false
  end.

(** [s.startswith(p)] *)
Fixpoint startswith (p s : str) : bool :=
  match p, s with
  | [], _ => true
  | _ :: _, [] => false
  | a :: p', b :: s' => N.eqb a b && startswith p' s'
  end.

(** [sep.join(parts)] *)
Fixpoint join (sep : str) (parts : list str) : str :=
  match parts with
  | [] => []
  | [p] => p
  | p :: rest => p ++ sep ++ join sep rest
  end.

(** [s.replace(old, new)]: the occurrences of [old] are found from the left
    and do not overlap.  [skip] counts the characters of a match that are
    still to be passed over. *)
Fixpoint replace_from (old new : str) (skip : nat) (s : str) : str :=
  match s with
  | [] => []
  | c :: t =>
      match skip with
      | S k => replace_from old new k t
      | O =>
          if startswith old s
          then new ++ replace_from old new (List.length old - 1) t
          else c :: replace_from old new 0 t
      end
  end.

Definition replace (old new s : str) : str :=
  match old with
  | [] => new ++ flat_map (fun c => c :: new) s
  | _ :: _ => replace_from old new 0 s
  end.

(** ** The two colon escapes *)

Definition colon : char := 58%N.
Definition backslash : char := 92%N.

(** [s.replace(':', r'\:').replace(r'\\:', r'\:')] *)
Definition fsemic (s : str) : str :=
  replace [backslash; backslash; colon] [backslash; colon]
    (replace [colon] [backslash; colon] s).

(** [s.replace(':', r'\\:')]: the raw literal is two backslashes and a colon. *)
Definition dsemic (s : str) : str :=
  replace [colon] [backslash; backslash; colon] s.

(** ** [shlex.quote] *)

Definition squote : char := 39%N.
Definition dquote : char := 34%N.
Definition newline : char := 10%N.

Definition is_digit (c : char) : bool := (48 <=? c)%N && (c <=? 57)%N.

Definition is_alpha (c : char) : bool :=
  ((65 <=? c)%N && (c <=? 90)%N) || ((97 <=? c)%N && (c <=? 122)%N).

(** [\w] under [re.ASCII] *)
Definition is_word (c : char) : bool :=
  is_alpha c || is_digit c || (c =? 95)%N.

(** the complement of the class [[^\w@%+=:,./-]] *)
Definition is_safe (c : char) : bool :=
  is_word c || existsb (N.eqb c) (lit "@%+=:,./-").

(** [quote(s)] for a string [s] *)
Definition quote (s : str) : str :=
  match s with
  | [] => [squote; squote]
  | _ :: _ =>
      if forallb is_safe s then s
      else [squote]
             ++ replace [squote] [squote; dquote; squote; dquote; squote] s
             ++ [squote]
  end.

(** ** [zsh_tag] *)

(** [c if ord(c) < 0x80 and c.isalnum() else '-']: [isalnum] is only asked
    of ASCII characters, where it means a letter or a digit. *)
Definition asciify (c : char) : char :=
  if (c <? 128)%N && (is_alpha c || is_digit c) then c else 45%N.

Definition zsh_tag (k : str) : str := map asciify k.

(** ** Integers and their renderings *)

(** Digits of [n] in base [b], least significant first. *)
Fixpoint digits_le (b : N) (fuel : nat) (n : N) : list N :=
  match fuel with
  | O => []
  | S f => if (n <? b)%N then [n] else (n mod b)%N :: digits_le b f (n / b)%N
  end.

Definition digit_char (d : N) : char := (48 + d)%N.

(** The numeral of [n] in base [b] (8 or 10 here), most significant digit
    first. *)
Definition numeral (b n : N) : str :=
  map digit_char (rev (digits_le b (S (N.to_nat (N.log2 n))) n)).

(** [oct(i)] *)
Definition oct (i : Z) : str :=
  (if (i <? 0)%Z then lit "-" else []) ++ lit "0o" ++ numeral 8 (Z.abs_N i).

(** [str(i)] for an [int] *)
Definition str_of_int (i : Z) : str :=
  (if (i <? 0)%Z then lit "-" else []) ++ numeral 10 (Z.abs_N i).

(** ['{:03}'.format(i)]: zero fill to width 3, the sign counted in it. *)
Definition format_03 (i : Z) : str :=
  let ds := numeral 10 (Z.abs_N i) in
  if (i <? 0)%Z
  then lit "-" ++ repeat (digit_char 0) (2 - List.length ds) ++ ds
  else repeat (digit_char 0) (3 - List.length ds) ++ ds.

(** The white space [int()] skips around an ASCII numeral. *)
Definition is_space (c : char) : bool :=
  ((9 <=? c)%N && (c <=? 13)%N) || (c =? 32)%N.

Fixpoint dropwhile (p : char -> bool) (s : str) : str :=
  match s with
  | [] => []
  | c :: t => if p c then dropwhile p t else s
  end.

(** Decimal digits with single underscores between them. *)
Fixpoint int_digits (after_digit : bool) (acc : N) (s : str) : option N :=
  match s with
  | [] => if after_digit then Some acc else None
  | c :: t =>
      if is_digit c then int_digits true (10 * acc + (c - 48))%N t
      else if (c =? 95)%N && after_digit then int_digits false acc t
      else None
  end.

(** What is left of [s] after the white space and the sign that [int()]
    skips in front of a numeral. *)
Definition after_sign (s : str) : str :=
  match dropwhile is_space s with
  | c :: t => if (c =? 45)%N || (c =? 43)%N then t else c :: t
  | [] => []
  end.

(** The digits and underscores [s] starts with: [int()] scans them, and
    counts the digits among them, before it converts anything. *)
Fixpoint digit_run (s : str) : str :=
  match s with
  | [] => []
  | c :: t => if is_digit c || (c =? 95)%N then c :: digit_run t else []
  end.

(** [int(s)] for an ASCII string [s] of any length; [None] is its
    [ValueError] for a string that is no numeral. *)
Definition int_ascii (s : str) : option Z :=
  let s1 := dropwhile is_space s in
  let '(neg, s2) :=
    match s1 with
    | c :: t =>
        if (c =? 45)%N then (true, t)
        else if (c =? 43)%N then (false, t)
        else (false, s1)
    | [] => (false, s1)
    end in
  match int_digits false 0%N (rev (dropwhile is_space (rev s2))) with
  | Some n => Some (if neg then (- Z.of_N n)%Z else Z.of_N n)
  | None => None
  end.

(** ** Exceptions and fallible computations *)

(** The exceptions the helper can meet.  [ValueError] and [KeyError] carry
    what the raising site puts in them, [UnicodeEncodeError] the text that
    could not be encoded; the message text the interpreter chooses for the
    other kinds is not modelled. *)
Inductive exn : Type :=
| ValueError (msg : str)
| KeyError (key : str)
| TypeError
| AttributeError
| OverflowError
| OSError (path : str)
| JSONDecodeError (msg : str)
| UnicodeEncodeError (object : str).

Inductive result (A : Type) : Type :=
| Ok (a : A)
| Err (e : exn).

Arguments Ok {A} a.
Arguments Err {A} e.

Definition bind {A B : Type} (c : result A) (k : A -> result B) : result B :=
  match c with
  | Ok a => k a
  | Err e => Err e
  end.

Declare Scope result_scope.
Delimit Scope result_scope with result.
Notation "x <- c ;; k" := (bind c (fun x => k))
  (at level 61, c at next level, right associativity) : result_scope.
Notation "' p <- c ;; k" := (bind c (fun x => let 'p := x in k))
  (at level 61, p pattern, c at next level, right associativity) : result_scope.

(** [[f(x) for x in l]], stopping at the first exception. *)
Fixpoint mapM {A B : Type} (f : A -> result B) (l : list A) : result (list B) :=
  match l with
  | [] => Ok []
  | a :: t => (b <- f a ;; bs <- mapM f t ;; Ok (b :: bs))%result
  end.

(** A [for] loop threading the loop's variables through its body. *)
Fixpoint foldM {A S : Type} (f : S -> A -> result S) (l : list A) (s : S)
  : result S :=
  match l with
  | [] => Ok s
  | a :: t => (s' <- f s a ;; foldM f t s')%result
  end.

(** ** Insertion-ordered dictionaries

    A [dict] keeps its keys in the order of their first insertion;
    assigning to a key that is present keeps its place. *)
Section Dict.
Variables K V : Type.
Variable eqb : K -> K -> bool.

Definition dict := list (K * V).

Fixpoint dict_get (k : K) (d : dict) : option V :=
  match d with
  | [] => None
  | (k', v) :: t => if eqb k k' then Some v else dict_get k t
  end.

(** [d[k] = v] *)
Fixpoint dict_set (k : K) (v : V) (d : dict) : dict :=
  match d with
  | [] => [(k, v)]
  | (k', v') :: t =>
      if eqb k k' then (k', v) :: t else (k', v') :: dict_set k v t
  end.

(** [d.setdefault(k, v)], for its effect on [d] *)
Definition dict_setdefault (k : K) (v : V) (d : dict) : dict :=
  match dict_get k d with
  | Some _ => d
  | None => d ++ [(k, v)]
  end.

(** an in-place change of the value stored at [k] *)
Fixpoint dict_modify (k : K) (f : V -> V) (d : dict) : dict :=
  match d with
  | [] => []
  | (k', v') :: t =>
      if eqb k k' then (k', f v') :: t else (k', v') :: dict_modify k f t
  end.

(** [d.pop(k)]: the value and the rest, or [None] for the [KeyError]. *)
Fixpoint dict_pop (k : K) (d : dict) : option (V * dict) :=
  match d with
  | [] => None
  | (k', v') :: t =>
      if eqb k k' then Some (v', t)
      else match dict_pop k t with
           | Some (v, t') => Some (v, (k', v') :: t')
           | None => None
           end
  end.
End Dict.

(** ** Decoded JSON

    What [json.load] returns: [None], [bool], [int], [float], [str], [list]
    and [dict] (its items in order).  The helper never computes with a
    [float], so the type of floats stays abstract. *)

#[local] Unset Elimination Schemes.

Inductive json (float : Type) : Type :=
| JNull
| JBool (b : bool)
| JInt (z : Z)
| JFloat (f : float)
| JStr (s : str)
| JArr (l : list (json float))
| JObj (kv : list (str * json float)).

#[local] Set Elimination Schemes.

Arguments JNull {float}.
Arguments JBool {float} b.
Arguments JInt {float} z.
Arguments JFloat {float} f.
Arguments JStr {float} s.
Arguments JArr {float} l.
Arguments JObj {float} kv.

(** ** The interpreter and its libraries

    What the helper takes from outside its own source: [bool(f)] and
    [int(f)] of a float, [int(s)] of a string that is not ASCII, the value
    of [sys.get_int_max_str_digits()] (4300 unless the interpreter is told
    otherwise, 0 for no limit), [==] between two dictionary keys that are
    not both strings, [repr], what a stream yields when read to its end,
    [json.load] on it, [traceback.format_exception_only], and the
    characters that the encoding and the error handler of [sys.stdout] can
    encode (with UTF-8 and [strict], all but the surrogates). *)
Class Runtime : Type := {
  float : Type;
  float_truth : float -> bool;
  int_of_float : float -> result Z;
  int_non_ascii : str -> result Z;
  int_max_str_digits : nat;
  scalar_eqb : json float -> json float -> bool;
  repr : json float -> str;
  content : Type;
  json_load : content -> result (json float);
  format_exception_only : exn -> list str;
  stdout_encodes : char -> bool
}.

Section Helper.

Context {rt : Runtime}.

Local Open Scope result_scope.

Definition value : Type := json float.

(** [x == 'literal'] *)
Definition is_str (x : value) (s : str) : bool :=
  match x with
  | JStr s' => str_eqb s' s
  | _ => false
  end.

(** [str(x)], which is what ['{}'.format(x)] inserts *)
Definition py_str (x : value) : str :=
  match x with
  | JStr s => s
  | _ => repr x
  end.

(** [bool(x)] *)
Definition truthy (x : value) : bool :=
  match x with
  | JNull => false
  | JBool b => b
  | JInt z => negb (z =? 0)%Z
  | JFloat f => float_truth f
  | JStr s => match s with [] => false | _ => true end
  | JArr l => match l with [] => false | _ => true end
  | JObj kv => match kv with [] => false | _ => true end
  end.

(** [o[k]] for a string key [k] *)
Definition getitem (o : value) (k : str) : result value :=
  match o with
  | JObj kv =>
      match dict_get str_eqb k kv with
      | Some v => Ok v
      | None => Err (KeyError k)
      end
  | _ => Err TypeError
  end.

(** [o.get(k, default)] *)
Definition get_default (o : value) (k : str) (default : value) : result value :=
  match o with
  | JObj kv =>
      match dict_get str_eqb k kv with
      | Some v => Ok v
      | None => Ok default
      end
  | _ => Err AttributeError
  end.

(** [iter(x)]: the items a [for] loop over [x] sees *)
Definition py_iter (x : value) : result (list value) :=
  match x with
  | JArr l => Ok l
  | JStr s => Ok (map (fun c => JStr [c]) s)
  | JObj kv => Ok (map (fun p => JStr (fst p)) kv)
  | _ => Err TypeError
  end.

(** Whether [int()] refuses a numeral of [digits] digits for its length:
    numerals of more than 640 digits are checked against the limit, and a
    limit of 0 switches the check off. *)
Definition exceeds_limit (digits : nat) : bool :=
  Nat.ltb 640 digits && Nat.ltb 0 int_max_str_digits
  && Nat.ltb int_max_str_digits digits.

Definition limit_message (digits : nat) : str :=
  lit "Exceeds the limit (" ++ str_of_int (Z.of_nat int_max_str_digits)
    ++ lit " digits) for integer string conversion: value has "
    ++ str_of_int (Z.of_nat digits)
    ++ lit " digits; use sys.set_int_max_str_digits() to increase the limit".

(** The message shows at most 200 characters of the [repr]. *)
Definition invalid_literal (s : str) : str :=
  lit "invalid literal for int() with base 10: " ++ firstn 200 (repr (JStr s)).

(** [int(s)] for a string.  After the white space and the sign, the run of
    digits and underscores is scanned: no digit or a misplaced underscore
    makes an invalid literal, then too many digits exceed the limit,
    whatever follows the run; only then is the numeral converted and what
    follows it looked at. *)
Definition int_of_str (s : str) : result Z :=
  if forallb (fun c => (c <? 128)%N) s then
    let run := digit_run (after_sign s) in
    let digits := List.length (filter is_digit run) in
    match int_digits false 0%N run with
    | None => Err (ValueError (invalid_literal s))
    | Some _ =>
        if exceeds_limit digits then Err (ValueError (limit_message digits))
        else
          match int_ascii s with
          | Some z => Ok z
          | None => Err (ValueError (invalid_literal s))
          end
    end
  else int_non_ascii s.

(** [int(v)] *)
Definition py_int (v : value) : result Z :=
  match v with
  | JInt z => Ok z
  | JBool b => Ok (if b then 1 else 0)%Z
  | JFloat f => int_of_float f
  | JStr s => int_of_str s
  | _ => Err TypeError
  end.

(** [quote(x)]: a falsy argument gives [''] whatever its type, and the
    regular expression search refuses what is not a string. *)
Definition quote_value (x : value) : result str :=
  match x with
  | JStr s => Ok (quote s)
  | _ => if truthy x then Err TypeError else Ok [squote; squote]
  end.

(** ** Record normalizer *)

(** ['0{:03}'.format(int(oct(i)[2:]))] *)
Definition c_style_octal (i : value) : result str :=
  o <- match i with
       | JInt z => Ok (oct z)
       | JBool b => Ok (oct (if b then 1 else 0))
       | _ => Err TypeError
       end ;;
  n <- int_of_str (skipn 2 o) ;;
  Ok (lit "0" ++ format_03 n).

(** The tuple [('false', 'true')] is given as the array of its items: the
    caller only tests the result against [None] and iterates over it. *)
Definition generate_choices (optentry : value) : result value :=
  t <- getitem optentry (lit "type") ;;
  if is_str t (lit "combo") then
    get_default optentry (lit "choices") (JArr [])
  else
    t' <- getitem optentry (lit "type") ;;
    if is_str t' (lit "boolean") then
      Ok (JArr [JStr (lit "false"); JStr (lit "true")])
    else Ok JNull.

(** ['<{}>'.format(i)], for the text of [i] *)
Definition simple_hint (i : str) : str := lit "<" ++ i ++ lit ">".

Definition generate_hint (optentry : value) : result str :=
  v <- getitem optentry (lit "value") ;;
  t <- getitem optentry (lit "type") ;;
  if is_str t (lit "boolean") then
    Ok (simple_hint (if truthy v then lit "true" else lit "false"))
  else
    n <- getitem optentry (lit "name") ;;
    if is_str n (lit "install_umask") then
      o <- c_style_octal v ;;
      Ok (simple_hint o)
    else
      t' <- getitem optentry (lit "type") ;;
      if is_str t' (lit "integer") then
        z <- py_int v ;;
        Ok (simple_hint (str_of_int z))
      else Ok (simple_hint (repr v)).

(** ** Code generator *)

Definition dq (s : str) : str := [dquote] ++ s ++ [dquote].

(** [r'${(qqq)descr//\%/%%}' + quote(' ({})'.format(o['type']))] *)
Definition value_descr (t : value) : str :=
  lit "${(qqq)descr//\%/%%}" ++ quote (lit " (" ++ py_str t ++ lit ")").

(** The [_wanted] and the [_message] forms of the completion line. *)
Definition wanted_line (vd : str) (quoted : list str) : str :=
  join (lit " ")
    [lit "_wanted"; lit "-V"; lit "build-option-values"; lit "expl"; vd;
     lit "compadd -"; join (lit " ") quoted].

Definition message_line (vd : str) : str :=
  join (lit " ")
    [lit "_message"; lit "-e"; lit "build-option-values"; vd].

Definition compadd_block (decl compadd : str) : str :=
  join [newline] [lit "    " ++ decl; lit "    " ++ compadd].

Definition generate_compadd_choices (o : value) : result str :=
  d <- getitem o (lit "description") ;;
  qd <- quote_value d ;;
  let decl := lit "descr=" ++ qd in
  t <- getitem o (lit "type") ;;
  let vd := value_descr t in
  choices <- generate_choices o ;;
  compadd <-
    match choices with
    | JNull => Ok (message_line vd)
    | _ =>
        again <- generate_choices o ;;
        items <- py_iter again ;;
        quoted <- mapM quote_value items ;;
        Ok (wanted_line vd quoted)
    end ;;
  Ok (compadd_block decl compadd).

(** [==] between two keys of [by_section]: two strings are compared as
    strings, and a string equals nothing else. *)
Definition key_eqb (a b : value) : bool :=
  match a, b with
  | JStr x, JStr y => str_eqb x y
  | JStr _, _ => false
  | _, JStr _ => false
  | _, _ => scalar_eqb a b
  end.

(** Lists and dictionaries cannot be dictionary keys. *)
Definition hashable (x : value) : bool :=
  match x with
  | JArr _ | JObj _ => false
  | _ => true
  end.

Definition sections := dict value (list str).
Definition switches := dict str str.

(** The [_describe] item spec of a record, before quoting. *)
Definition describe_spec (name : str) (descr : str) : str :=
  fsemic name ++ lit ":" ++ fsemic descr.

(** The dispatch branch of a record: the pattern line, the completion
    block and the terminator. *)
Definition switch_entry (name : str) (block : str) : str :=
  join [newline]
    [lit "  (" ++ dq name ++ lit ")"; block; lit "  ;;"].

(** One turn of the loop over [i_data]. *)
Definition loop_body (st : sections * switches) (opt : value)
  : result (sections * switches) :=
  let '(by_section, switch_entries) := st in
  gr <- getitem opt (lit "section") ;;
  name <- getitem opt (lit "name") ;;
  d <- getitem opt (lit "description") ;;
  h <- generate_hint opt ;;
  let descr := py_str d ++ lit " " ++ h in
  sname <- match name with
           | JStr s => Ok s
           | _ => Err AttributeError
           end ;;
  let spec := describe_spec sname descr in
  by_section1 <-
    (if hashable gr then Ok (dict_setdefault key_eqb gr [] by_section)
     else Err TypeError) ;;
  let by_section2 :=
    dict_modify key_eqb gr (fun l => l ++ [quote spec]) by_section1 in
  block <- generate_compadd_choices opt ;;
  Ok (by_section2,
      dict_set str_eqb sname (switch_entry sname block) switch_entries).

(** What one turn of the loop reads from its record, apart from the two
    dictionaries: the section, the quoted item spec, the name and the
    dispatch branch. *)
Record item : Type := Item {
  item_section : value;
  item_spec : str;
  item_name : str;
  item_entry : str
}.

Definition read_item (opt : value) : result item :=
  gr <- getitem opt (lit "section") ;;
  name <- getitem opt (lit "name") ;;
  d <- getitem opt (lit "description") ;;
  h <- generate_hint opt ;;
  sname <- match name with
           | JStr s => Ok s
           | _ => Err AttributeError
           end ;;
  _ <- (if hashable gr then Ok tt else Err TypeError) ;;
  block <- generate_compadd_choices opt ;;
  Ok (Item gr (quote (describe_spec sname (py_str d ++ lit " " ++ h)))
        sname (switch_entry sname block)).

(** What the turn does to the two dictionaries. *)
Definition add_item (st : sections * switches) (it : item)
  : sections * switches :=
  (dict_modify key_eqb (item_section it) (fun l => l ++ [item_spec it])
     (dict_setdefault key_eqb (item_section it) [] (fst st)),
   dict_set str_eqb (item_name it) (item_entry it) (snd st)).

(** The generator [user_first], as the list of the pairs it yields. *)
Definition user_first (d : sections) : sections :=
  match dict_pop key_eqb (JStr (lit "user")) d with
  | Some (u, dd) => (JStr (lit "user"), u) :: dd
  | None => d
  end.

Definition specs_arr (tag_prefix : str) : str :=
  lit "__ndescgroup_" ++ tag_prefix.

(** ['  local -a {}=(\n    {}\n  )'.format(specs_arr, '\n    '.join(v))] *)
Definition alt_decl (tag_prefix : str) (v : list str) : str :=
  lit "  local -a " ++ specs_arr tag_prefix ++ lit "=(" ++ [newline]
    ++ lit "    " ++ join ([newline] ++ lit "    ") v ++ [newline]
    ++ lit "  )".

(** ['{}-options:{} option:(( "${{(@){}}}" ))'.format(tag_prefix, k,
    specs_arr)], quoted *)
Definition alt_word (tag_prefix : str) (k : value) : str :=
  quote (tag_prefix ++ lit "-options:" ++ py_str k ++ lit " option:(( "
           ++ dq (lit "${(@)" ++ specs_arr tag_prefix ++ lit "}")
           ++ lit " ))").

(** One turn of the loop over the sections: the declaration and the
    alternative word of a section.  [map(asciify, k)] needs a string. *)
Definition section_clause (kv : value * list str) : result (str * str) :=
  let '(k, v) := kv in
  tag_prefix <- match k with
                | JStr s => Ok (zsh_tag s)
                | _ => Err TypeError
                end ;;
  Ok (alt_decl tag_prefix v, alt_word tag_prefix k).

Definition buildoptions_function (alt_decls alt_words : list str) : str :=
  join [newline]
    [lit "__meson_project_buildoptions() {";
     lit "  # This function loops over tag labels itself.";
     join [newline] alt_decls;
     lit "  local -a alternative_argv=( " ++ dq (lit "$@") ++ lit " )";
     lit "  _alternative -O alternative_argv " ++ join (lit " ") alt_words;
     lit "}" ++ [newline]].

Definition buildoption_choices_function (entries : list str) : str :=
  join [newline]
    [lit "__meson_project_buildoption_choices() {";
     lit "  # This function loops over tag labels itself.";
     lit "  local m_optname=" ++ dq (lit "$1");
     lit "  local descr";
     lit "  case " ++ dq (lit "$m_optname") ++ lit " in";
     join [newline] entries;
     lit "  *)";
     lit "    _message " ++ dq (lit "unknown option; cannot offer choices")
       ++ lit "  ;;";
     lit "  esac";
     lit "}" ++ [newline]].

(** The two dictionaries the first loop builds. *)
Definition collect (i_data : value) : result (sections * switches) :=
  opts <- py_iter i_data ;;
  foldM loop_body opts ([], []).

Definition render (st : sections * switches) : result str :=
  let '(by_section, switch_entries) := st in
  clauses <- mapM section_clause (user_first by_section) ;;
  Ok (join [newline]
        [buildoptions_function (map fst clauses) (map snd clauses);
         buildoption_choices_function (map snd switch_entries)]).

Definition complete_build_options (i_data : value) : result str :=
  st <- collect i_data ;;
  render st.
(** ** The process: arguments, streams, output and exit status *)

(** The surroundings of one run: what standard input holds, and what
    [open(p)] finds at a path. *)
Record world : Type := World {
  stdin_content : content;
  file_content : str -> result content
}.

Inductive stream : Type :=
| Stdin
| File (path : str).

Inductive event : Type :=
| EvOpen (path : str)
| EvRead (s : stream)
| EvClose (s : stream).

(** The effects of a run so far: the streams touched, in order, and the
    text written to standard output. *)
Record effects : Type := Effects {
  events : list event;
  stdout : str
}.

Definition io (A : Type) : Type := effects -> result A * effects.

Definition io_ret {A : Type} (a : A) : io A := fun st => (Ok a, st).

Definition io_raise {A : Type} (e : exn) : io A := fun st => (Err e, st).

Definition io_bind {A B : Type} (c : io A) (k : A -> io B) : io B :=
  fun st =>
    match c st with
    | (Ok a, st') => k a st'
    | (Err e, st') => (Err e, st')
    end.

Definition io_lift {A : Type} (r : result A) : io A := fun st => (r, st).

Declare Scope io_scope.
Delimit Scope io_scope with io.
Notation "x <- c ;; k" := (io_bind c (fun x => k))
  (at level 61, c at next level, right associativity) : io_scope.
Notation "c ;;; k" := (io_bind c (fun _ => k))
  (at level 61, right associativity) : io_scope.

(** [try: body  except Exception as e: handler(e)]: what the body did
    before it raised stays done. *)
Definition try_except {A : Type} (body : io A) (handler : exn -> io A) : io A :=
  fun st =>
    match body st with
    | (Ok a, st') => (Ok a, st')
    | (Err e, st') => handler e st'
    end.

Definition log (ev : event) : io unit :=
  fun st => (Ok tt, Effects (events st ++ [ev]) (stdout st)).

(** Whether standard output can encode the text [s]. *)
Definition writable (s : str) : bool := forallb stdout_encodes s.

(** [sys.stdout.write(s)]: the text is encoded as a whole, and nothing of
    it is written when one of its characters has no encoding.  The device
    behind the stream is taken to accept whatever has been encoded. *)
Definition write (s : str) : io unit :=
  fun st =>
    if writable s then (Ok tt, Effects (events st) (stdout st ++ s))
    else (Err (UnicodeEncodeError s), st).

Fixpoint write_all (chunks : list str) : io unit :=
  match chunks with
  | [] => io_ret tt
  | c :: rest => io_bind (write c) (fun _ => write_all rest)
  end.

(** The arguments of [print] with the separator between them. *)
Fixpoint separated (sep : str) (args : list str) : list str :=
  match args with
  | [] => []
  | [a] => [a]
  | a :: rest => a :: sep :: separated sep rest
  end.

(** [print] of several arguments with [sep='\n']: every argument, every
    separator and the newline at the end is written on its own, so what
    was written before a text that cannot be encoded stays written. *)
Definition print (args : list str) : io unit :=
  write_all (separated [newline] args ++ [[newline]]).

(** [open(p)] *)
Definition open (w : world) (p : str) : io stream :=
  (log (EvOpen p) ;;;
   _ <- io_lift (file_content w p) ;;
   io_ret (File p))%io.

(** [json.load(istream)]: the stream is read to its end, then decoded. *)
Definition load (w : world) (s : stream) : io value :=
  (log (EvRead s) ;;;
   c <- io_lift match s with
                | Stdin => Ok (stdin_content w)
                | File p => file_content w p
                end ;;
   io_lift (json_load c))%io.

(** [with s: body]: the stream is closed however the body ends. *)
Definition with_stream {A : Type} (s : stream) (body : io A) : io A :=
  fun st =>
    match body st with
    | (r, st') => (r, Effects (events st' ++ [EvClose s]) (stdout st'))
    end.

(** The characters [str.rstrip()] removes. *)
Definition is_whitespace (c : char) : bool :=
  ((9 <=? c)%N && (c <=? 13)%N) || ((28 <=? c)%N && (c <=? 32)%N)
  || (c =? 133)%N || (c =? 160)%N || (c =? 5760)%N
  || ((8192 <=? c)%N && (c <=? 8202)%N)
  || (c =? 8232)%N || (c =? 8233)%N || (c =? 8239)%N || (c =? 8287)%N
  || (c =? 12288)%N.

Definition rstrip (s : str) : str := rev (dropwhile is_whitespace (rev s)).

(** The quoted diagnostics of a failure, one for each item of
    [format_exception_only]. *)
Definition messages (exc : exn) : list str :=
  map (fun line => quote (lit "cannot complete: " ++ rstrip line))
    (format_exception_only exc).

Definition message_body (msgs : list str) : str :=
  join [newline] (map (fun msg => lit "  " ++ lit "_message " ++ msg) msgs).

Definition emit_message_on_exception (exc : exn) : io unit :=
  let msgs := messages exc in
  print [lit "__meson_project_buildoptions () {";
         message_body msgs;
         lit "}";
         lit "__meson_project_buildoption_choices () {";
         message_body msgs;
         lit "}"].

(** [os.path.join] of [posixpath] *)
Definition path_join (a : str) (p : list str) : str :=
  fold_left
    (fun path b =>
       if startswith (lit "/") b then b
       else if match path with [] => true | _ => false end
               || startswith (lit "/") (rev path)
            then path ++ b
            else path ++ lit "/" ++ b)
    p a.

Definition path_from_builddir (builddir mode : str) : str :=
  path_join builddir [lit "meson-info"; lit "intro-" ++ mode ++ lit ".json"].

(** The variables of the loop of [_getopts]. *)
Record scan : Type := Scan {
  scan_builddir : option str;
  scan_mode : option str;
  scan_posopts : nat
}.

Definition scan_arg (st : scan) (i : str) : scan :=
  if startswith (lit "--") i then
    Scan (scan_builddir st) (Some (skipn 2 i)) (scan_posopts st)
  else if Nat.ltb 0 (scan_posopts st) then st
  else Scan (Some i) (scan_mode st) (scan_posopts st + 1).

Definition scan_argv (argv : list str) : scan :=
  fold_left scan_arg argv (Scan None None 0).

Record options : Type := Options {
  istream : stream;
  mode : str;
  builddir : option str
}.

Definition _getopts (w : world) (argv : list str) : io options :=
  let st := scan_argv argv in
  match scan_mode st with
  | None => io_raise (ValueError (lit "completion mode is not specified"))
  | Some m =>
      if negb (str_eqb m (lit "buildoptions")) then
        io_raise (ValueError (lit "unknown completion mode: " ++ m))
      else
        (s <- match scan_builddir st with
              | None => io_ret Stdin
              | Some b =>
                  if str_eqb b (lit "-") then io_ret Stdin
                  else open w (path_from_builddir b m)
              end ;;
         io_ret (Options s m (scan_builddir st)))%io
  end.

(** The body of the [try] of [main]. *)
Definition main_body (w : world) (argv : list str) : io Z :=
  (a <- _getopts w argv ;;
   jd <- with_stream (istream a) (load w (istream a)) ;;
   text <- io_lift (complete_build_options jd) ;;
   print [text] ;;;
   io_ret 0%Z)%io.

Definition main (w : world) (argv : list str) : io Z :=
  try_except (main_body w argv)
    (fun e => (emit_message_on_exception e ;;; io_ret 1%Z)%io).

(** One run of the program from a fresh process: [sys.exit(main(argv))].
    An exception that leaves [main], which only the handler can raise,
    ends the process with status 1, like every exception nothing
    catches. *)
Definition run (w : world) (argv : list str) : result Z * effects :=
  match main w argv (Effects [] []) with
  | (Ok status, st) => (Ok status, st)
  | (Err _, st) => (Ok 1%Z, st)
  end.

End Helper.

(** * Reference definitions

    What the properties below compare the code with. *)

(** What [fsemic] does, read off its two replacements: a colon gets a
    backslash unless one stands before it already. *)
Fixpoint escape_colons (escaped : bool) (s : str) : str :=
  match s with
  | [] => []
  | c :: t =>
      if (c =? colon)%N
      then (if escaped then [colon] else [backslash; colon])
             ++ escape_colons false t
      else c :: escape_colons (c =? backslash)%N t
  end.

(** The number a list of digits stands for, least significant first. *)
Fixpoint value_le (b : N) (l : list N) : N :=
  match l with
  | [] => 0%N
  | d :: t => (d + b * value_le b t)%N
  end.

(** Digits below [b], at least one, and no zero in the top place of a
    numeral of several digits. *)
Fixpoint canonical (b : N) (l : list N) : Prop :=
  match l with
  | [] => False
  | d :: t =>
      (d < b)%N /\
      match t with
      | [] => True
      | _ :: _ => canonical b t /\ existsb (fun x => negb (x =? 0)%N) t = true
      end
  end.

(** [s.zfill(w)]-like padding with zero digits on the left. *)
Definition zero_pad (w : nat) (s : str) : str :=
  repeat (digit_char 0) (w - List.length s) ++ s.

(** A C-style octal literal: a zero digit, then the octal numeral of [n]
    padded to three digits. *)
Definition octal_literal (n : N) : str :=
  lit "0" ++ zero_pad 3 (numeral 8 n).

(** ** A runtime to run the model on

    No floats; a stream holds a document that is decoded already; [repr]
    and the formatting of exceptions are plain stand-ins, a [ValueError]
    being formatted as one string, its name, its text and a newline; the
    limit of [int] is the default of 4300 digits, and standard output
    encodes UTF-8 with the handler [strict]. *)

Definition sample_repr (x : json Empty_set) : str :=
  match x with
  | JNull => lit "None"
  | JBool b => if b then lit "True" else lit "False"
  | JInt z => str_of_int z
  | JFloat f => match f with end
  | JStr s => [squote] ++ s ++ [squote]
  | JArr _ => lit "[...]"
  | JObj _ => lit "{...}"
  end.

Definition sample_format (e : exn) : list str :=
  match e with
  | ValueError msg => [lit "ValueError: " ++ msg ++ [newline]]
  | KeyError key => [lit "KeyError: " ++ sample_repr (JStr key) ++ [newline]]
  | TypeError => [lit "TypeError" ++ [newline]]
  | AttributeError => [lit "AttributeError" ++ [newline]]
  | OverflowError => [lit "OverflowError" ++ [newline]]
  | OSError path => [lit "OSError: " ++ path ++ [newline]]
  | JSONDecodeError msg => [lit "JSONDecodeError: " ++ msg ++ [newline]]
  | UnicodeEncodeError _ =>
      [lit "UnicodeEncodeError: surrogates not allowed" ++ [newline]]
  end.

(** The code points UTF-8 has no encoding for. *)
Definition is_surrogate (c : char) : bool :=
  (55296 <=? c)%N && (c <=? 57343)%N.

Definition sample_runtime : Runtime := {|
  float := Empty_set;
  float_truth := fun f => match f with end;
  int_of_float := fun f => match f with end;
  int_non_ascii := fun s => Err (ValueError s);
  int_max_str_digits := 4300;
  scalar_eqb := fun _ _ => false;
  repr := sample_repr;
  content := json Empty_set;
  json_load := fun c => Ok c;
  format_exception_only := sample_format;
  stdout_encodes := fun c => negb (is_surrogate c)
|}.

(** An option record with the fields every record has. *)
Definition sample_option (name type : string) (v : json Empty_set)
    (section description : string) : json Empty_set :=
  JObj [(lit "name", JStr (lit name)); (lit "type", JStr (lit type));
        (lit "value", v); (lit "section", JStr (lit section));
        (lit "description", JStr (lit description))].

(** The values of the mode flags of an argument vector, in order, and the
    last of them. *)
Definition mode_flags (argv : list str) : list str :=
  map (skipn 2) (filter (startswith (lit "--")) argv).

Definition last_flag (argv : list str) : option str :=
  last (map Some (mode_flags argv)) None.

(** Surroundings for the sample runtime: a document on standard input and
    no file anywhere. *)
Definition sample_world (doc : json Empty_set) : @world sample_runtime :=
  World (rt := sample_runtime) doc (fun p => Err (OSError p)).

(** ** Grouping, said without dictionaries *)

(** The distinct elements of a list, each at its first appearance. *)
Fixpoint first_seen (l : list str) : list str :=
  match l with
  | [] => []
  | x :: t => x :: filter (fun y => negb (str_eqb y x)) (first_seen t)
  end.

(** The reserved label first when it occurs, the other labels after it in
    the order of their first appearance. *)
Definition section_order (labels : list str) : list str :=
  if existsb (str_eqb (lit "user")) labels
  then lit "user"
         :: filter (fun y => negb (str_eqb y (lit "user"))) (first_seen labels)
  else first_seen labels.

(** The values paired with key [k], in order. *)
Definition values_of (k : str) (l : list (str * str)) : list str :=
  map snd (filter (fun kv => str_eqb (fst kv) k) l).

(** The value of the last pair with key [k]. *)
Definition last_value (k : str) (l : list (str * str)) : str :=
  last (values_of k l) [].

(** The label of a section that is a string. *)
Definition label_of {float : Type} (x : json float) : str :=
  match x with
  | JStr s => s
  | _ => []
  end.

(** The dictionary with keys [keys], in that order, and value [h k] at
    key [k]. *)
Definition tabulate {K V : Type} (h : K -> V) (keys : list K) : dict K V :=
  map (fun k => (k, h k)) keys.

(** A dictionary with string keys, seen as one with JSON keys. *)
Definition str_keys {float V : Type} (d : dict str V) : dict (json float) V :=
  map (fun kv => (JStr (fst kv), snd kv)) d.

(** The specs of the items by section label, and their branches by name. *)
Definition section_rows {rt : Runtime} (items : list item) : list (str * str) :=
  map (fun it => (label_of (item_section it), item_spec it)) items.

Definition name_rows {rt : Runtime} (items : list item) : list (str * str) :=
  map (fun it => (item_name it, item_entry it)) items.

(** A section that is a string. *)
Definition labelled {rt : Runtime} (it : item) : Prop :=
  item_section it = JStr (label_of (item_section it)).

(** What the generated text holds of one record: the label of its
    section, its name, the text of its description, its hint and its
    completion block. *)
Record row : Type := Row {
  row_section : str;
  row_name : str;
  row_descr : str;
  row_hint : str;
  row_block : str
}.

(** The record [o] has a string for its section and for its name, and the
    text of its description, its hint and its completion block are those
    of [r]. *)
Definition reads {rt : Runtime} (o : value) (r : row) : Prop :=
  getitem o (lit "section") = Ok (JStr (row_section r))
  /\ getitem o (lit "name") = Ok (JStr (row_name r))
  /\ (exists d,
        getitem o (lit "description") = Ok d /\ py_str d = row_descr r)
  /\ generate_hint o = Ok (row_hint r)
  /\ generate_compadd_choices o = Ok (row_block r).

(** The quoted item spec of a row: name, colon, description and hint, the
    colons of both sides escaped. *)
Definition row_spec (r : row) : str :=
  quote (fsemic (row_name r) ++ lit ":"
           ++ fsemic (row_descr r ++ lit " " ++ row_hint r)).

(** The dispatch branch of a row: the name between double quotes as the
    pattern, the block, the terminator. *)
Definition row_branch (r : row) : str :=
  lit "  (" ++ [dquote] ++ row_name r ++ [dquote] ++ lit ")" ++ [newline]
    ++ row_block r ++ [newline] ++ lit "  ;;".

Definition item_of_row {rt : Runtime} (r : row) : item :=
  Item (JStr (row_section r)) (row_spec r) (row_name r) (row_branch r).

(** A computation that writes nothing to standard output. *)
Definition quiet {rt : Runtime} {A : Type} (c : io A) : Prop :=
  forall st r st', c st = (r, st') -> stdout st' = stdout st.

(** ** Sample inputs *)

Definition sample_bool : json Empty_set :=
  sample_option "opt_bool" "boolean" (JBool true) "user" "a flag".

Definition sample_combo : json Empty_set :=
  JObj [(lit "name", JStr (lit "opt_combo")); (lit "type", JStr (lit "combo"));
        (lit "value", JStr (lit "x"));
        (lit "choices", JArr [JStr (lit "x"); JStr (lit "y")]);
        (lit "section", JStr (lit "core"));
        (lit "description", JStr (lit "one of two"))].

Definition sample_string : json Empty_set :=
  sample_option "prefix" "string" (JStr (lit "/usr")) "dirs" "where to".

Definition sample_umask (v : Z) : json Empty_set :=
  sample_option "install_umask" "integer" (JInt v) "core" "mask".

(** A name that the shell expands inside double quotes. *)
Definition sample_hostile : json Empty_set :=
  sample_option "$(id)" "string" (JStr (lit "x")) "user" "d".

(** Four records: two sections besides user, and the name opt_bool twice. *)
Definition sample_input : json Empty_set :=
  JArr [sample_combo; sample_bool; sample_string;
        sample_option "opt_bool" "string" (JStr (lit "y")) "core" "again"].

Definition sample_output : str :=
  Eval vm_compute in
    match complete_build_options (rt := sample_runtime) sample_input with
    | Ok text => text
    | Err _ => []
    end.

(** ** Colons and separators *)

(** Every colon of [s] has a backslash right before it; [escaped] says
    whether a backslash stands right before [s]. *)
Fixpoint colons_escaped (escaped : bool) (s : str) : bool :=
  match s with
  | [] => true
  | c :: t =>
      if (c =? colon)%N then escaped && colons_escaped false t
      else colons_escaped (c =? backslash)%N t
  end.

(** The text before and after the first colon of [s] that has no backslash
    right before it. *)
Fixpoint split_at_bare_colon (escaped : bool) (s : str) : option (str * str) :=
  match s with
  | [] => None
  | c :: t =>
      if (c =? colon)%N && negb escaped then Some ([], t)
      else
        match split_at_bare_colon (c =? backslash)%N t with
        | Some (a, b) => Some (c :: a, b)
        | None => None
        end
  end.

(** The number of colons of [s]. *)
Definition count_colons (s : str) : nat :=
  List.length (filter (fun c => (c =? colon)%N) s).


(** Whether [s] ends with a backslash; [escaped] says whether one stands
    right before [s]. *)
Fixpoint ends_with_backslash (escaped : bool) (s : str) : bool :=
  match s with
  | [] => escaped
  | c :: t => ends_with_backslash (c =? backslash)%N t
  end.

(** The number an octal literal stands for. *)
Definition octal_value (s : str) : N :=
  fold_left (fun a c => (8 * a + (c - 48))%N) s 0%N.

Definition is_octal_digit (c : char) : bool := (48 <=? c)%N && (c <=? 55)%N.

(** ** Arguments and output of a run *)

(** The arguments that are not flags, in order. *)
Definition positionals (argv : list str) : list str :=
  filter (fun i => negb (startswith (lit "--") i)) argv.

(** The keys the loop reads from a record, in the order it reads them. *)
Definition required_keys : list str :=
  [lit "section"; lit "name"; lit "description"; lit "value"; lit "type"].

(** The first required key a record lacks. *)
Definition first_missing {V : Type} (kv : dict str V) : option str :=
  find (fun k => match dict_get str_eqb k kv with
                 | None => true
                 | Some _ => false
                 end) required_keys.

(** What the failure reporter writes for an exception. *)
Definition stub_text {rt : Runtime} (exc : exn) : str :=
  join [newline]
    [lit "__meson_project_buildoptions () {";
     message_body (messages exc);
     lit "}";
     lit "__meson_project_buildoption_choices () {";
     message_body (messages exc);
     lit "}"] ++ [newline].

(** What a run that fails with [exc] after the events [evs] comes to:
    status 1, and the stubs for [exc] printed or, when standard output
    cannot encode their diagnostics, the first line of the first stub
    only. *)
Definition failure {rt : Runtime} (evs : list event) (exc : exn)
  : result Z * effects :=
  (Ok 1%Z,
   Effects evs
     (if writable (message_body (messages exc)) then stub_text exc
      else lit "__meson_project_buildoptions () {" ++ [newline])).

(** A mask option as Meson writes it when the mask is kept. *)
Definition sample_preserve : json Empty_set :=
  sample_option "install_umask" "string" (JStr (lit "preserve")) "core" "mask".

Definition sample_integer : json Empty_set :=
  sample_option "jobs" "integer" (JInt (-3)) "core" "how many".

(** * Properties *)

(** ** Strings *)

Lemma str_eqb_eq (a b : str) : str_eqb a b = true <-> a = b.
Proof.
  revert b. induction a as [|x a IH]; intros [|y b]; cbn [str_eqb];
    try (split; [discriminate | congruence]); [easy|].
  rewrite andb_true_iff, N.eqb_eq, IH. split; [intros []|intros [=]]; now subst.
Qed.

Lemma str_eqb_refl (a : str) : str_eqb a a = true.
Proof. now apply str_eqb_eq. Qed.

Lemma str_eqb_neq (a b : str) : str_eqb a b = false <-> a <> b.
Proof.
  rewrite <- str_eqb_eq. destruct (str_eqb a b); split; congruence.
Qed.

(** Replacing a single character acts on each character by itself. *)
Lemma replace_char (a : char) (new s : str) :
  replace [a] new s = flat_map (fun c => if (c =? a)%N then new else [c]) s.
Proof.
  unfold replace. induction s as [|c t IH]; [reflexivity|].
  cbn [replace_from startswith flat_map List.length Nat.sub].
  rewrite andb_true_r, (N.eqb_sym a c), IH.
  destruct (c =? a)%N; reflexivity.
Qed.

Lemma escape_colons_head (b : bool) (s : str) :
  startswith [colon] s = false -> escape_colons b s = escape_colons false s.
Proof.
  destruct s as [|c t]; [reflexivity|].
  cbn [startswith escape_colons].
  rewrite andb_true_r, N.eqb_sym. now intros ->.
Qed.

Lemma startswith_cons (a : char) (p : str) (b : char) (s : str) :
  startswith (a :: p) (b :: s) = (a =? b)%N && startswith p s.
Proof. reflexivity. Qed.

Lemma replace_from_cons (old new : str) (c : char) (t : str) :
  replace_from old new 0 (c :: t)
  = if startswith old (c :: t)
    then new ++ replace_from old new (List.length old - 1) t
    else c :: replace_from old new 0 t.
Proof. reflexivity. Qed.

Lemma replace_from_skip (old new : str) (k : nat) (c : char) (t : str) :
  replace_from old new (S k) (c :: t) = replace_from old new k t.
Proof. reflexivity. Qed.

Lemma fsemic_scan (s : str) :
  let g := flat_map (fun c => if (c =? colon)%N then [backslash; colon] else [c]) in
  let r := replace_from [backslash; backslash; colon] [backslash; colon] 0 in
  r (g s) = escape_colons false s
  /\ r (backslash :: g s) = backslash :: escape_colons true s.
Proof.
  cbv zeta.
  assert (Hbc : (backslash =? colon)%N = false) by reflexivity.
  assert (Hcb : (colon =? backslash)%N = false) by reflexivity.
  assert (Hbb : (backslash =? backslash)%N = true) by reflexivity.
  induction s as [|c t [IH1 IH2]]; [split; reflexivity|].
  cbn [flat_map escape_colons].
  destruct (N.eqb_spec c colon) as [->|Hc].
  - (* a colon: its backslash is emitted apart, or closes a match *)
    cbn [app]. split.
    + rewrite replace_from_cons, !startswith_cons, Hbb, Hbc. cbn [andb].
      rewrite replace_from_cons, !startswith_cons, Hbc. cbn [andb].
      now rewrite IH1.
    + rewrite replace_from_cons, !startswith_cons, !Hbb.
      replace (colon =? colon)%N with true by reflexivity.
      cbn [andb startswith List.length Nat.sub].
      rewrite !replace_from_skip. now rewrite IH1.
  - assert (Hc' : (colon =? c)%N = false)
      by (apply N.eqb_neq; congruence).
    cbn [app]. split.
    + destruct (N.eqb_spec c backslash) as [->|Hb]; [exact IH2|].
      rewrite replace_from_cons, startswith_cons.
      replace (backslash =? c)%N with false
        by (symmetry; apply N.eqb_neq; congruence).
      cbn [andb]. now rewrite IH1.
    + rewrite replace_from_cons, !startswith_cons, Hbb. cbn [andb].
      destruct (N.eqb_spec c backslash) as [->|Hb].
      * (* two backslashes: a match needs a colon right after them *)
        rewrite Hbb. cbn [andb].
        destruct t as [|d t']; [reflexivity|].
        cbn [flat_map] in *.
        destruct (N.eqb_spec d colon) as [->|Hd].
        -- cbn [app] in *. rewrite startswith_cons, Hcb. cbn [andb].
           now rewrite IH2.
        -- cbn [app] in *. rewrite startswith_cons.
           replace (colon =? d)%N with false
             by (symmetry; apply N.eqb_neq; congruence).
           cbn [andb]. rewrite IH2.
           rewrite (@escape_colons_head true (d :: t')); [reflexivity|].
           rewrite startswith_cons. apply andb_false_intro1.
           apply N.eqb_neq. congruence.
      * assert (Hb' : (backslash =? c)%N = false)
          by (apply N.eqb_neq; congruence).
        rewrite Hb'. cbn [andb].
        rewrite replace_from_cons, startswith_cons, Hb'. cbn [andb].
        now rewrite IH1.
Qed.

Lemma fsemic_escape_colons (s : str) : fsemic s = escape_colons false s.
Proof.
  unfold fsemic. rewrite replace_char. unfold replace.
  exact (proj1 (fsemic_scan s)).
Qed.

Lemma escape_colons_idem (s : str) :
  forall b, escape_colons b (escape_colons b s) = escape_colons b s.
Proof.
  induction s as [|c t IH]; intro b; [reflexivity|].
  cbn [escape_colons].
  destruct (N.eqb_spec c colon) as [->|Hc].
  - destruct b; cbn [app escape_colons];
      change (colon =? colon)%N with true;
      change (backslash =? colon)%N with false;
      change (backslash =? backslash)%N with true;
      cbn [app escape_colons];
      change (colon =? colon)%N with true; cbn [app]; now rewrite IH.
  - cbn [escape_colons].
    replace (c =? colon)%N with false
      by (symmetry; apply N.eqb_neq; congruence).
    now rewrite IH.
Qed.

(** C3: escaping rule A is idempotent, and turns a:b into a\:b with a
    single backslash. *)
Theorem fsemic_idempotent :
  (forall s, fsemic (fsemic s) = fsemic s)
  /\ fsemic (lit "a:b") = lit "a\:b".
Proof.
  split; [|reflexivity].
  intro s. rewrite !fsemic_escape_colons. apply escape_colons_idem.
Qed.

(** C2, as the code has it: rule B puts two backslashes before every
    colon and changes nothing else; a:b becomes a\\:b. *)
Theorem dsemic_backslashes :
  (forall s,
     dsemic s
     = flat_map
         (fun c => if (c =? colon)%N then [backslash; backslash; colon]
                   else [c]) s)
  /\ dsemic (lit "a:b") = lit "a\\:b".
Proof.
  split; [|reflexivity].
  intro s. unfold dsemic. apply replace_char.
Qed.

(** C2 as stated fails: the colon of a:b is not doubled. *)
Lemma dsemic_does_not_double : dsemic (lit "a:b") <> lit "a::b".
Proof. vm_compute. discriminate. Qed.

(** ** Numerals *)

Local Open Scope N_scope.

Lemma value_le_pos (b : N) (l : list N) :
  0 < b -> (existsb (fun x => negb (x =? 0)) l = true <-> 0 < value_le b l).
Proof.
  intro Hb. induction l as [|d t IH]; cbn [existsb value_le].
  - split; [discriminate | lia].
  - rewrite orb_true_iff, IH, negb_true_iff, N.eqb_neq. nia.
Qed.

Lemma canonical_weaken (b c : N) (l : list N) :
  b <= c -> canonical b l -> canonical c l.
Proof.
  intro Hbc. induction l as [|d t IH]; [easy|].
  cbn [canonical]. intros [Hd Ht]. split; [lia|].
  destruct t; [exact I|]. destruct Ht as [Ht Hz]. split; [now apply IH | exact Hz].
Qed.

Lemma log2_div_lt (b n : N) :
  2 <= b -> b <= n -> N.log2 (n / b) < N.log2 n.
Proof.
  intros Hb Hn.
  assert (Hq : 0 < n / b) by (apply N.div_str_pos; lia).
  assert (H2 : 2 * (n / b) <= n).
  { transitivity (b * (n / b)); [nia | apply N.Div0.mul_div_le]. }
  apply N.lt_le_trans with (N.log2 (2 * (n / b))).
  - rewrite N.log2_double by exact Hq. lia.
  - now apply N.log2_le_mono.
Qed.

(** With fuel beyond the binary logarithm, [digits_le] gives the canonical
    digits of its argument. *)
Lemma digits_le_canonical (b : N) :
  2 <= b ->
  forall (fuel : nat) (n : N),
    (N.to_nat (N.log2 n) < fuel)%nat ->
    canonical b (digits_le b fuel n) /\ value_le b (digits_le b fuel n) = n.
Proof.
  intro Hb. induction fuel as [|f IH]; intros n Hf; [lia|].
  cbn [digits_le]. destruct (N.ltb_spec n b) as [Hlt|Hge].
  - cbn. repeat split; lia.
  - assert (Hlog := log2_div_lt Hb Hge).
    destruct (IH (n / b)) as [Hc Hv]; [lia|].
    assert (Hq : 0 < n / b) by (apply N.div_str_pos; lia).
    cbn [canonical value_le]. rewrite Hv. split.
    + split; [apply N.mod_lt; lia|].
      destruct (digits_le b f (n / b)) as [|d t] eqn:E; [cbn in Hc; easy|].
      split; [exact Hc|]. apply (value_le_pos (b := b)); lia.
    + rewrite (N.div_mod n b) at 3 by lia. lia.
Qed.

(** Canonical digits are the ones [digits_le] finds for their number. *)
Lemma digits_le_unique (b : N) :
  2 <= b ->
  forall (l : list N) (fuel : nat),
    canonical b l ->
    (N.to_nat (N.log2 (value_le b l)) < fuel)%nat ->
    digits_le b fuel (value_le b l) = l.
Proof.
  intro Hb. induction l as [|d t IH]; intros fuel Hc Hf; [easy|].
  destruct fuel as [|f]; [lia|].
  cbn [canonical] in Hc. destruct Hc as [Hd Ht].
  cbn [digits_le value_le] in *.
  destruct t as [|d' t'].
  - cbn [value_le]. rewrite N.mul_0_r, N.add_0_r.
    destruct (N.ltb_spec d b); [reflexivity | lia].
  - destruct Ht as [Ht Hz].
    set (v := value_le b (d' :: t')) in *.
    assert (Hv : 0 < v) by (apply (value_le_pos (b := b)); [lia | exact Hz]).
    assert (Hdiv : (d + b * v) / b = v).
    { rewrite N.mul_comm, N.div_add by lia. rewrite N.div_small by lia. lia. }
    assert (Hmod : (d + b * v) mod b = d).
    { rewrite N.mul_comm, N.Div0.mod_add. apply N.mod_small. lia. }
    destruct (N.ltb_spec (d + b * v) b) as [Hlt|Hge]; [nia|].
    rewrite Hmod, Hdiv. f_equal. apply IH; [exact Ht|].
    assert (Hlog := log2_div_lt Hb Hge). rewrite Hdiv in Hlog. lia.
Qed.

Lemma digit_char_props (d : N) :
  d < 10 ->
  is_digit (digit_char d) = true
  /\ is_space (digit_char d) = false
  /\ (digit_char d =? 45) = false
  /\ (digit_char d =? 43) = false
  /\ (digit_char d =? 95) = false
  /\ (digit_char d <? 128) = true
  /\ digit_char d - 48 = d.
Proof.
  intro Hd. unfold is_digit, is_space, digit_char.
  split; [apply andb_true_intro; split; apply N.leb_le; lia|].
  split.
  { apply orb_false_intro;
      [apply andb_false_intro2; apply N.leb_gt; lia | apply N.eqb_neq; lia]. }
  repeat split; try (apply N.eqb_neq; lia); [apply N.ltb_lt; lia | lia].
Qed.

Lemma int_digits_numeral (ds : list N) :
  Forall (fun d => d < 10) ds ->
  forall (after : bool) (acc : N),
    ds <> [] \/ after = true ->
    int_digits after acc (map digit_char ds)
    = Some (fold_left (fun a d => 10 * a + d) ds acc).
Proof.
  induction 1 as [|d t Hd Ht IH]; intros after acc Hne.
  - destruct Hne as [Hne| ->]; [congruence | reflexivity].
  - cbn [map int_digits fold_left].
    destruct (digit_char_props Hd) as (-> & _ & _ & _ & _ & _ & ->).
    apply IH. now right.
Qed.

Lemma fold_left_value_le (l : list N) :
  fold_left (fun a d => 10 * a + d) (rev l) 0 = value_le 10 l.
Proof.
  induction l as [|d t IH]; [reflexivity|].
  cbn [rev value_le]. rewrite fold_left_app, IH. cbn. lia.
Qed.

Lemma canonical_Forall (b : N) (l : list N) :
  canonical b l -> Forall (fun d => d < b) l.
Proof.
  induction l as [|d t IH]; [constructor|].
  cbn [canonical]. intros [Hd Ht]. constructor; [exact Hd|].
  destruct t; [constructor|]. now apply IH.
Qed.

Lemma dropwhile_digits (ds : list N) :
  Forall (fun d => d < 10) ds ->
  dropwhile is_space (map digit_char ds) = map digit_char ds.
Proof.
  destruct 1 as [|d t Hd Ht]; [reflexivity|].
  cbn [map dropwhile].
  now destruct (digit_char_props Hd) as (_ & -> & _).
Qed.

(** [int] reads a decimal numeral back. *)
Lemma int_ascii_digits (ds : list N) :
  Forall (fun d => d < 10) ds ->
  ds <> [] ->
  int_ascii (map digit_char ds)
  = Some (Z.of_N (fold_left (fun a d => 10 * a + d) ds 0)).
Proof.
  intros HF Hne. unfold int_ascii.
  rewrite dropwhile_digits by exact HF.
  destruct ds as [|m ms]; [congruence|].
  assert (Hm : m < 10) by (now inversion HF).
  destruct (digit_char_props Hm) as (_ & _ & Hmi & Hpl & _).
  cbn [map]. rewrite Hmi, Hpl.
  change (digit_char m :: map digit_char ms) with (map digit_char (m :: ms)).
  rewrite <- map_rev, dropwhile_digits by (now apply Forall_rev).
  rewrite map_rev, rev_involutive.
  rewrite int_digits_numeral; [reflexivity | exact HF | now left].
Qed.

Lemma int_ascii_numeral (l : list N) :
  canonical 10 l ->
  int_ascii (map digit_char (rev l)) = Some (Z.of_N (value_le 10 l)).
Proof.
  intro Hc. assert (HF := canonical_Forall _ _ Hc).
  rewrite int_ascii_digits.
  - now rewrite fold_left_value_le.
  - now apply Forall_rev.
  - intro E. apply (f_equal (@rev N)) in E. rewrite rev_involutive in E.
    subst l. exact Hc.
Qed.

(** A numeral of digits has no sign in front and is its own run of
    digits. *)
Lemma after_sign_digits (ds : list N) :
  Forall (fun d => d < 10) ds ->
  after_sign (map digit_char ds) = map digit_char ds.
Proof.
  intro HF. unfold after_sign. rewrite dropwhile_digits by exact HF.
  destruct HF as [|d t Hd Ht]; [reflexivity|].
  cbn [map]. destruct (digit_char_props Hd) as (_ & _ & -> & -> & _).
  reflexivity.
Qed.

Lemma digit_run_digits (ds : list N) :
  Forall (fun d => d < 10) ds ->
  digit_run (map digit_char ds) = map digit_char ds
  /\ filter is_digit (map digit_char ds) = map digit_char ds.
Proof.
  induction 1 as [|d t Hd Ht [IH1 IH2]]; [split; reflexivity|].
  cbn [map digit_run filter].
  destruct (digit_char_props Hd) as (-> & _). cbn [orb].
  now rewrite IH1, IH2.
Qed.

(** A canonical numeral of several digits is at least the power of the
    base at its top place. *)
Lemma canonical_lower_bound (b : N) (l : list N) :
  2 <= b -> canonical b l ->
  existsb (fun x => negb (x =? 0)) l = true ->
  b ^ N.of_nat (List.length l - 1) <= value_le b l.
Proof.
  intro Hb. induction l as [|d t IH]; [discriminate|].
  cbn [canonical]. intros [Hd Ht] Hnz.
  destruct t as [|d' t'].
  - cbn [existsb] in Hnz. rewrite orb_false_r, negb_true_iff in Hnz.
    apply N.eqb_neq in Hnz. cbn. lia.
  - destruct Ht as [Ht Hz]. specialize (IH Ht Hz).
    change (value_le b (d :: d' :: t'))
      with (d + b * value_le b (d' :: t')).
    replace (List.length (d :: d' :: t') - 1)%nat
      with (S (List.length (d' :: t') - 1)) by (cbn [List.length]; lia).
    rewrite Nat2N.inj_succ, N.pow_succ_r'.
    set (v := value_le b (d' :: t')) in *.
    set (p := b ^ N.of_nat (List.length (d' :: t') - 1)) in *.
    apply N.le_trans with (b * v); [now apply N.mul_le_mono_l | lia].
Qed.

(** A number below the [k]-th power of the base has at most [k] digits. *)
Lemma canonical_length_bound (b : N) (l : list N) (k : nat) :
  2 <= b -> canonical b l -> value_le b l < b ^ N.of_nat k ->
  (0 < k)%nat -> (List.length l <= k)%nat.
Proof.
  intros Hb Hc Hv Hk.
  destruct l as [|d t]; [easy|]. destruct t as [|d' t']; [cbn; lia|].
  assert (Hnz : existsb (fun x => negb (x =? 0)) (d :: d' :: t') = true).
  { cbn [canonical] in Hc. destruct Hc as [_ [_ Hz]].
    change (existsb (fun x => negb (x =? 0)) (d :: d' :: t'))
      with (negb (d =? 0) || existsb (fun x => negb (x =? 0)) (d' :: t')).
    rewrite Hz. apply orb_true_r. }
  assert (Hlow := @canonical_lower_bound b (d :: d' :: t') Hb Hc Hnz).
  assert (Hlt : b ^ N.of_nat (List.length (d :: d' :: t') - 1)
                < b ^ N.of_nat k) by lia.
  apply N.pow_lt_mono_r_iff in Hlt; lia.
Qed.

Close Scope N_scope.

Lemma numeral_spec (b n : N) :
  (2 <= b)%N ->
  exists ds,
    numeral b n = map digit_char (rev ds)
    /\ canonical b ds /\ value_le b ds = n.
Proof.
  intro Hb. exists (digits_le b (S (N.to_nat (N.log2 n))) n).
  destruct (@digits_le_canonical b Hb (S (N.to_nat (N.log2 n))) n) as [Hc Hv];
    [lia|].
  now repeat split.
Qed.

Lemma numeral_of_canonical (b : N) (ds : list N) :
  (2 <= b)%N -> canonical b ds ->
  numeral b (value_le b ds) = map digit_char (rev ds).
Proof.
  intros Hb Hc. unfold numeral. rewrite digits_le_unique; auto.
Qed.

(** The octal numeral of [n], read as decimal and written as decimal again,
    is itself. *)
Lemma int_of_octal_numeral (n : N) :
  exists m : N,
    int_ascii (numeral 8 n) = Some (Z.of_N m)
    /\ numeral 10 m = numeral 8 n.
Proof.
  destruct (@numeral_spec 8 n) as (ds & E & Hc & _); [lia|].
  assert (Hc10 : canonical 10 ds) by (apply (@canonical_weaken 8); [lia | exact Hc]).
  exists (value_le 10 ds). rewrite E. split.
  - now apply int_ascii_numeral.
  - apply numeral_of_canonical; [lia | exact Hc10].
Qed.

Lemma numeral_length_bound (b n : N) (k : nat) :
  (2 <= b)%N -> (n < b ^ N.of_nat k)%N -> (0 < k)%nat ->
  (List.length (numeral b n) <= k)%nat.
Proof.
  intros Hb Hn Hk. destruct (@numeral_spec b n Hb) as (ds & -> & Hc & Hv).
  rewrite length_map, length_rev.
  apply (@canonical_length_bound b); auto. now rewrite Hv.
Qed.

Lemma numeral_ascii (b n : N) :
  (2 <= b <= 10)%N -> forallb (fun c => (c <? 128)%N) (numeral b n) = true.
Proof.
  intros [Hb Hb']. destruct (@numeral_spec b n Hb) as (ds & -> & Hc & _).
  apply forallb_forall. intros c Hin.
  apply in_map_iff in Hin. destruct Hin as (d & <- & Hd).
  apply in_rev in Hd.
  assert (HF := canonical_Forall _ _ Hc).
  assert (d < 10)%N by (apply (proj1 (Forall_forall _ _) HF) in Hd; lia).
  now destruct (@digit_char_props d) as (_ & _ & _ & _ & _ & -> & _).
Qed.

(** ** Dictionaries *)

Section DictFacts.

Variables K V : Type.
Variable eqb : K -> K -> bool.
Hypothesis eqb_eq : forall a b, eqb a b = true <-> a = b.

Lemma eqb_refl (a : K) : eqb a a = true.
Proof. now apply eqb_eq. Qed.

Lemma existsb_eqb_In (k : K) (l : list K) :
  existsb (eqb k) l = true <-> In k l.
Proof.
  rewrite existsb_exists. split.
  - intros (x & Hx & E). apply eqb_eq in E. now subst.
  - intro H. exists k. split; [exact H | apply eqb_refl].
Qed.

Lemma existsb_eqb_notin (k : K) (l : list K) :
  existsb (eqb k) l = false <-> ~ In k l.
Proof.
  rewrite <- existsb_eqb_In. destruct (existsb (eqb k) l); split; congruence.
Qed.

Lemma dict_get_tabulate (h : K -> V) (k : K) (l : list K) :
  dict_get eqb k (tabulate h l)
  = if existsb (eqb k) l then Some (h k) else None.
Proof.
  induction l as [|x t IH]; [reflexivity|].
  cbn [tabulate map dict_get existsb]. fold (tabulate h t).
  destruct (eqb k x) eqn:E; [|exact IH].
  apply eqb_eq in E. now subst.
Qed.

Lemma tabulate_ext (h h' : K -> V) (l : list K) :
  (forall k, In k l -> h k = h' k) -> tabulate h l = tabulate h' l.
Proof.
  intro H. apply map_ext_in. intros k Hk. now rewrite H.
Qed.

Lemma dict_modify_notin (k : K) (f : V -> V) (d d' : dict K V) :
  ~ In k (map fst d) ->
  dict_modify eqb k f (d ++ d') = d ++ dict_modify eqb k f d'.
Proof.
  induction d as [|[x v] t IH]; intro Hn; [reflexivity|].
  cbn [app dict_modify]. cbn [map fst In] in Hn.
  destruct (eqb k x) eqn:E.
  - apply eqb_eq in E. subst. tauto.
  - f_equal. apply IH. tauto.
Qed.

Lemma dict_modify_tabulate (h : K -> V) (k : K) (f : V -> V) (l : list K) :
  NoDup l ->
  dict_modify eqb k f (tabulate h l)
  = tabulate (fun x => if eqb k x then f (h x) else h x) l.
Proof.
  induction 1 as [|x t Hx Ht IH]; [reflexivity|].
  cbn [tabulate map dict_modify].
  fold (tabulate h t).
  fold (tabulate (fun x => if eqb k x then f (h x) else h x) t).
  destruct (eqb k x) eqn:E.
  - apply eqb_eq in E. subst x. f_equal.
    apply tabulate_ext. intros y Hy.
    destruct (eqb k y) eqn:E'; [|reflexivity].
    apply eqb_eq in E'. now subst.
  - now rewrite IH.
Qed.

Lemma dict_set_notin (k : K) (v : V) (d : dict K V) :
  ~ In k (map fst d) -> dict_set eqb k v d = d ++ [(k, v)].
Proof.
  induction d as [|[x w] t IH]; intro Hn; [reflexivity|].
  cbn [dict_set app]. cbn [map fst In] in Hn.
  destruct (eqb k x) eqn:E.
  - apply eqb_eq in E. subst. tauto.
  - f_equal. apply IH. tauto.
Qed.

Lemma dict_set_tabulate (h : K -> V) (k : K) (v : V) (l : list K) :
  NoDup l -> In k l ->
  dict_set eqb k v (tabulate h l)
  = tabulate (fun x => if eqb k x then v else h x) l.
Proof.
  induction 1 as [|x t Hx Ht IH]; intro Hin; [easy|].
  cbn [tabulate map dict_set].
  fold (tabulate h t).
  fold (tabulate (fun x => if eqb k x then v else h x) t).
  destruct (eqb k x) eqn:E.
  - apply eqb_eq in E. subst x. f_equal.
    apply tabulate_ext. intros y Hy.
    destruct (eqb k y) eqn:E'; [|reflexivity].
    apply eqb_eq in E'. now subst.
  - f_equal. apply IH. destruct Hin as [->|Hin]; [|exact Hin].
    now rewrite eqb_refl in E.
Qed.

Lemma map_fst_tabulate (h : K -> V) (l : list K) :
  map fst (tabulate h l) = l.
Proof.
  unfold tabulate. rewrite map_map. cbn [fst]. apply map_id.
Qed.

Lemma filter_notin (k : K) (l : list K) :
  ~ In k l -> filter (fun y => negb (eqb y k)) l = l.
Proof.
  induction l as [|x t IH]; intro Hn; [reflexivity|].
  cbn [filter]. cbn [In] in Hn.
  destruct (eqb x k) eqn:E.
  - apply eqb_eq in E. subst. tauto.
  - cbn [negb]. f_equal. apply IH. tauto.
Qed.

Lemma dict_pop_tabulate (h : K -> V) (k : K) (l : list K) :
  NoDup l ->
  dict_pop eqb k (tabulate h l)
  = if existsb (eqb k) l
    then Some (h k, tabulate h (filter (fun y => negb (eqb y k)) l))
    else None.
Proof.
  induction 1 as [|x t Hx Ht IH]; [reflexivity|].
  cbn [tabulate map dict_pop existsb filter]. fold (tabulate h t).
  destruct (eqb k x) eqn:E.
  - apply eqb_eq in E. subst x. rewrite eqb_refl. cbn [orb negb].
    now rewrite filter_notin.
  - rewrite IH. cbn [orb].
    assert (E' : eqb x k = false).
    { destruct (eqb x k) eqn:E'; [|reflexivity].
      apply eqb_eq in E'. subst. now rewrite eqb_refl in E. }
    rewrite E'. cbn [negb].
    destruct (existsb (eqb k) t); reflexivity.
Qed.

Lemma dict_modify_keys (k : K) (f : V -> V) (d : dict K V) :
  map fst (dict_modify eqb k f d) = map fst d.
Proof.
  induction d as [|[x v] t IH]; [reflexivity|].
  cbn [dict_modify]. destruct (eqb k x); cbn [map fst]; [reflexivity|].
  now rewrite IH.
Qed.

Lemma dict_get_key (k : K) (v : V) (d : dict K V) :
  dict_get eqb k d = Some v -> exists k', In k' (map fst d) /\ eqb k k' = true.
Proof.
  induction d as [|[x w] t IH]; [discriminate|].
  cbn [dict_get map fst In]. destruct (eqb k x) eqn:E.
  - intros _. exists x. split; [now left | exact E].
  - intro H. destruct (IH H) as (k' & Hin & Hk). exists k'. split; [now right | exact Hk].
Qed.

Lemma dict_pop_keys (k : K) (v : V) (d d' : dict K V) :
  dict_pop eqb k d = Some (v, d') ->
  forall k', In k' (map fst d) -> In k' (map fst d') \/ eqb k k' = true.
Proof.
  revert v d'. induction d as [|[x w] t IH]; intros v d'; [discriminate|].
  cbn [dict_pop map fst In]. destruct (eqb k x) eqn:E.
  - intros [= _ <-] k' [<-|Hin]; [now right | now left].
  - destruct (dict_pop eqb k t) as [[u t']|] eqn:Ep; [|discriminate].
    intros [= _ <-] k' [<-|Hin].
    + left. now left.
    + destruct (IH _ _ eq_refl k' Hin) as [H|H]; [left; now right | now right].
Qed.

End DictFacts.

Arguments existsb_eqb_In {K eqb} eqb_eq k l.
Arguments existsb_eqb_notin {K eqb} eqb_eq k l.
Arguments dict_get_tabulate {K V eqb} eqb_eq h k l.
Arguments dict_modify_notin {K V eqb} eqb_eq k f d d' _.
Arguments dict_modify_tabulate {K V eqb} eqb_eq h k f {l} _.
Arguments dict_set_notin {K V eqb} eqb_eq k v d _.
Arguments dict_set_tabulate {K V eqb} eqb_eq h k v {l} _ _.
Arguments dict_pop_tabulate {K V eqb} eqb_eq h k {l} _.
Arguments filter_notin {K eqb} eqb_eq k l _.
Arguments dict_modify_keys {K V} eqb k f d.
Arguments dict_get_key {K V} eqb k {v d} _.
Arguments dict_pop_keys {K V} eqb {k v d d'} _ k' _.

(** ** First appearances *)

Lemma first_seen_In (l : list str) (x : str) :
  In x (first_seen l) <-> In x l.
Proof.
  induction l as [|y t IH]; [reflexivity|].
  cbn [first_seen In]. rewrite filter_In, IH, negb_true_iff, str_eqb_neq.
  destruct (list_eq_dec N.eq_dec y x); intuition congruence.
Qed.

Lemma first_seen_NoDup (l : list str) : NoDup (first_seen l).
Proof.
  induction l as [|y t IH]; [constructor|].
  cbn [first_seen]. constructor.
  - rewrite filter_In, negb_true_iff, str_eqb_neq. tauto.
  - now apply NoDup_filter.
Qed.

Lemma first_seen_snoc (l : list str) (x : str) :
  first_seen (l ++ [x])
  = if existsb (str_eqb x) l then first_seen l else first_seen l ++ [x].
Proof.
  induction l as [|y t IH].
  - reflexivity.
  - cbn [app first_seen existsb]. rewrite IH.
    destruct (str_eqb x y) eqn:E.
    + apply str_eqb_eq in E. subst y. cbn [orb].
      destruct (existsb (str_eqb x) t); [reflexivity|].
      rewrite filter_app. cbn [filter]. rewrite str_eqb_refl. cbn [negb].
      now rewrite app_nil_r.
    + cbn [orb]. destruct (existsb (str_eqb x) t); [reflexivity|].
      rewrite filter_app. cbn [filter]. now rewrite E.
Qed.

Lemma values_of_snoc (k g x : str) (l : list (str * str)) :
  values_of k (l ++ [(g, x)])
  = values_of k l ++ (if str_eqb g k then [x] else []).
Proof.
  unfold values_of. rewrite filter_app, map_app. cbn [filter fst].
  destruct (str_eqb g k); reflexivity.
Qed.

Lemma values_of_notin (k : str) (l : list (str * str)) :
  ~ In k (map fst l) -> values_of k l = [].
Proof.
  unfold values_of. induction l as [|[g x] t IH]; intro Hn; [reflexivity|].
  cbn [filter fst]. cbn [map fst In] in Hn.
  destruct (str_eqb g k) eqn:E.
  - apply str_eqb_eq in E. tauto.
  - apply IH. tauto.
Qed.

Lemma last_value_snoc (k n e : str) (l : list (str * str)) :
  last_value k (l ++ [(n, e)])
  = if str_eqb n k then e else last_value k l.
Proof.
  unfold last_value. rewrite values_of_snoc.
  destruct (str_eqb n k); [apply last_last | now rewrite app_nil_r].
Qed.

(** Appending to the list of a section, as the loop does it, on the
    dictionary of the groups. *)
Lemma add_to_group (rows : list (str * str)) (g x : str) :
  dict_modify str_eqb g (fun l => l ++ [x])
    (dict_setdefault str_eqb g []
       (tabulate (fun k => values_of k rows) (first_seen (map fst rows))))
  = tabulate (fun k => values_of k (rows ++ [(g, x)]))
      (first_seen (map fst (rows ++ [(g, x)]))).
Proof.
  rewrite map_app. cbn [map fst]. rewrite first_seen_snoc.
  unfold dict_setdefault. rewrite (dict_get_tabulate str_eqb_eq).
  assert (Hex : existsb (str_eqb g) (first_seen (map fst rows))
                = existsb (str_eqb g) (map fst rows)).
  { destruct (existsb (str_eqb g) (map fst rows)) eqn:E.
    - apply (existsb_eqb_In str_eqb_eq). apply first_seen_In.
      now apply (existsb_eqb_In str_eqb_eq).
    - apply (existsb_eqb_notin str_eqb_eq). rewrite first_seen_In.
      now apply (existsb_eqb_notin str_eqb_eq). }
  rewrite Hex. destruct (existsb (str_eqb g) (map fst rows)) eqn:E.
  - rewrite (dict_modify_tabulate str_eqb_eq) by apply first_seen_NoDup.
    apply tabulate_ext. intros k _. rewrite values_of_snoc.
    destruct (str_eqb g k); [reflexivity | now rewrite app_nil_r].
  - apply (existsb_eqb_notin str_eqb_eq) in E.
    rewrite (dict_modify_notin str_eqb_eq)
      by (rewrite map_fst_tabulate, first_seen_In; exact E).
    cbn [dict_modify]. rewrite str_eqb_refl.
    unfold tabulate. rewrite map_app. cbn [map]. f_equal.
    + apply map_ext_in. intros k Hk. rewrite values_of_snoc.
      destruct (str_eqb g k) eqn:E'; [|now rewrite app_nil_r].
      apply str_eqb_eq in E'. subst k. apply (proj1 (first_seen_In _ _)) in Hk. tauto.
    + rewrite values_of_snoc, str_eqb_refl, values_of_notin by exact E.
      reflexivity.
Qed.

(** Assigning the branch of a name, on the dictionary of the branches. *)
Lemma set_branch (rows : list (str * str)) (n e : str) :
  dict_set str_eqb n e
    (tabulate (fun k => last_value k rows) (first_seen (map fst rows)))
  = tabulate (fun k => last_value k (rows ++ [(n, e)]))
      (first_seen (map fst (rows ++ [(n, e)]))).
Proof.
  rewrite map_app. cbn [map fst]. rewrite first_seen_snoc.
  destruct (existsb (str_eqb n) (map fst rows)) eqn:E.
  - apply (existsb_eqb_In str_eqb_eq) in E.
    rewrite (dict_set_tabulate str_eqb_eq)
      by (apply first_seen_NoDup || now apply first_seen_In).
    apply tabulate_ext. intros k _. now rewrite last_value_snoc.
  - apply (existsb_eqb_notin str_eqb_eq) in E.
    rewrite (dict_set_notin str_eqb_eq)
      by (rewrite map_fst_tabulate, first_seen_In; exact E).
    unfold tabulate. rewrite map_app. cbn [map]. f_equal.
    + apply map_ext_in. intros k Hk. rewrite last_value_snoc.
      destruct (str_eqb n k) eqn:E'; [|reflexivity].
      apply str_eqb_eq in E'. subst k. apply (proj1 (first_seen_In _ _)) in Hk. tauto.
    + now rewrite last_value_snoc, str_eqb_refl.
Qed.

Section Properties.

Context {rt : Runtime}.

(** ** Record normalizer *)

(** [int] of a string of digits: the limit on their number is looked at
    first, then the digits are read. *)
Lemma int_of_str_digits (ds : list N) :
  Forall (fun d => (d < 10)%N) ds -> ds <> [] ->
  int_of_str (map digit_char ds)
  = if exceeds_limit (List.length ds)
    then Err (ValueError (limit_message (List.length ds)))
    else Ok (Z.of_N (fold_left (fun a d => (10 * a + d)%N) ds 0%N)).
Proof.
  intros HF Hne. unfold int_of_str.
  assert (Hascii : forallb (fun c => (c <? 128)%N) (map digit_char ds) = true).
  { apply forallb_forall. intros c Hin.
    apply in_map_iff in Hin. destruct Hin as (d & <- & Hd).
    apply (proj1 (Forall_forall _ _) HF) in Hd.
    now destruct (digit_char_props Hd) as (_ & _ & _ & _ & _ & -> & _). }
  rewrite Hascii, after_sign_digits by exact HF. cbv zeta.
  destruct (digit_run_digits HF) as [-> ->].
  rewrite int_digits_numeral; [|exact HF|now left].
  rewrite length_map.
  destruct (exceeds_limit (List.length ds)); [reflexivity|].
  now rewrite int_ascii_digits.
Qed.

(** The numeral of a number under a power of eight that the limit of
    [int] allows is not refused for its length. *)
Lemma octal_within_limit (v : Z) :
  (0 <= v)%Z ->
  int_max_str_digits = 0%nat
  \/ (v < 8 ^ Z.of_nat (Nat.max 640 int_max_str_digits))%Z ->
  exceeds_limit (List.length (numeral 8 (Z.to_N v))) = false.
Proof.
  intros Hv Hlim. unfold exceeds_limit.
  destruct Hlim as [-> | Hlt]; [now rewrite andb_false_r|].
  assert (Hlen : (List.length (numeral 8 (Z.to_N v))
                  <= Nat.max 640 int_max_str_digits)%nat).
  { apply numeral_length_bound; [lia| |lia].
    apply N2Z.inj_lt. rewrite N2Z.inj_pow, Z2N.id, nat_N_Z by exact Hv.
    exact Hlt. }
  destruct (Nat.ltb_spec 640 (List.length (numeral 8 (Z.to_N v))));
    [|reflexivity].
  destruct (Nat.ltb_spec 0 int_max_str_digits); [|reflexivity].
  destruct (Nat.ltb_spec int_max_str_digits
              (List.length (numeral 8 (Z.to_N v)))); [lia | reflexivity].
Qed.

Lemma c_style_octal_nonneg (v : Z) :
  (0 <= v)%Z ->
  c_style_octal (JInt v)
  = if exceeds_limit (List.length (numeral 8 (Z.to_N v)))
    then Err (ValueError
                (limit_message (List.length (numeral 8 (Z.to_N v)))))
    else Ok (octal_literal (Z.to_N v)).
Proof.
  intro Hv. unfold c_style_octal, oct.
  replace (v <? 0)%Z with false by (symmetry; apply Z.ltb_ge; exact Hv).
  cbn [bind app lit list_ascii_of_string map skipn].
  replace (Z.abs_N v) with (Z.to_N v) by (destruct v; [reflexivity..|lia]).
  destruct (@numeral_spec 8 (Z.to_N v)) as (ds & E & Hc & _); [lia|].
  assert (Hc10 : canonical 10 ds)
    by (apply (@canonical_weaken 8); [lia | exact Hc]).
  assert (HF := canonical_Forall _ _ Hc10).
  unfold octal_literal. rewrite E, int_of_str_digits.
  - rewrite length_map.
    destruct (exceeds_limit (List.length (rev ds))); [reflexivity|].
    cbn [bind]. rewrite fold_left_value_le.
    unfold format_03, zero_pad.
    replace (Z.of_N (value_le 10 ds) <? 0)%Z with false
      by (symmetry; apply Z.ltb_ge; lia).
    now rewrite Zabs2N.id, (@numeral_of_canonical 10) by (lia || exact Hc10).
  - now apply Forall_rev.
  - intro E'. apply (f_equal (@rev N)) in E'.
    rewrite rev_involutive in E'. subst ds. exact Hc.
Qed.

(** C7: a record of type boolean has the choices false, true in that
    order, and the hint <true> or <false> after its value. *)
Theorem boolean_choices_and_hint (o : value) :
  getitem o (lit "type") = Ok (JStr (lit "boolean")) ->
  generate_choices o = Ok (JArr [JStr (lit "false"); JStr (lit "true")])
  /\ (getitem o (lit "value") = Ok (JBool true) ->
      generate_hint o = Ok (lit "<true>"))
  /\ (getitem o (lit "value") = Ok (JBool false) ->
      generate_hint o = Ok (lit "<false>")).
Proof.
  intro Ht. repeat split.
  - unfold generate_choices. rewrite Ht. reflexivity.
  - intro Hv. unfold generate_hint. rewrite Hv, Ht. reflexivity.
  - intro Hv. unfold generate_hint. rewrite Hv, Ht. reflexivity.
Qed.

(** C8, for a mask that is not negative and whose octal numeral [int]
    does not refuse for its length, which is every mask under the power of
    eight that the limit on the digits allows (8^4300 with the limit of
    4300 digits, every mask with no limit): the hint of install_umask is
    the C-style octal literal of its value in angle brackets, <0022> for
    18. *)
Theorem install_umask_hint (o t : value) (v : Z) :
  getitem o (lit "name") = Ok (JStr (lit "install_umask")) ->
  getitem o (lit "type") = Ok t ->
  is_str t (lit "boolean") = false ->
  getitem o (lit "value") = Ok (JInt v) ->
  (0 <= v)%Z ->
  int_max_str_digits = 0%nat
  \/ (v < 8 ^ Z.of_nat (Nat.max 640 int_max_str_digits))%Z ->
  generate_hint o = Ok (lit "<" ++ octal_literal (Z.to_N v) ++ lit ">")
  /\ (exists ds,
        numeral 8 (Z.to_N v) = map digit_char (rev ds)
        /\ canonical 8 ds /\ value_le 8 ds = Z.to_N v)
  /\ (v = 18%Z -> generate_hint o = Ok (lit "<0022>")).
Proof.
  intros Hn Ht Hb Hv Hpos Hlim.
  assert (E : generate_hint o
              = Ok (lit "<" ++ octal_literal (Z.to_N v) ++ lit ">")).
  { unfold generate_hint. rewrite Hv, Ht. cbn [bind]. rewrite Hb, Hn.
    cbn [bind].
    replace (is_str (JStr (lit "install_umask")) (lit "install_umask"))
      with true by reflexivity.
    rewrite c_style_octal_nonneg, octal_within_limit by assumption.
    reflexivity. }
  split; [exact E|]. split; [apply numeral_spec; lia|].
  intros ->. exact E.
Qed.

(** ** Value completion *)




(** ** The process *)

Lemma quiet_ret {A : Type} (a : A) : quiet (io_ret a).
Proof. intros st r st' [= _ <-]. reflexivity. Qed.

Lemma quiet_raise {A : Type} (e : exn) : quiet (io_raise (A := A) e).
Proof. intros st r st' [= _ <-]. reflexivity. Qed.

Lemma quiet_lift {A : Type} (r : result A) : quiet (io_lift r).
Proof. intros st r' st' [= _ <-]. reflexivity. Qed.

Lemma quiet_log (ev : event) : quiet (log ev).
Proof. intros st r st' [= _ <-]. reflexivity. Qed.

Lemma quiet_bind {A B : Type} (c : io A) (k : A -> io B) :
  quiet c -> (forall a, quiet (k a)) -> quiet (io_bind c k).
Proof.
  intros Hc Hk st r st'. unfold io_bind.
  destruct (c st) as [[a|e] st1] eqn:E.
  - intro H. rewrite (Hk a _ _ _ H). exact (Hc _ _ _ E).
  - intros [= _ <-]. exact (Hc _ _ _ E).
Qed.

Lemma quiet_with_stream {A : Type} (s : stream) (c : io A) :
  quiet c -> quiet (with_stream s c).
Proof.
  intros Hc st r st'. unfold with_stream.
  destruct (c st) as [r1 st1] eqn:E. intros [= _ <-]. exact (Hc _ _ _ E).
Qed.

Lemma quiet_open (w : world) (p : str) : quiet (open w p).
Proof.
  unfold open. apply quiet_bind; [apply quiet_log|]. intros _.
  apply quiet_bind; [apply quiet_lift|]. intros _. apply quiet_ret.
Qed.

Lemma quiet_load (w : world) (s : stream) : quiet (load w s).
Proof.
  unfold load. apply quiet_bind; [apply quiet_log|]. intros _.
  apply quiet_bind; [apply quiet_lift|]. intros c. apply quiet_lift.
Qed.

Lemma quiet_getopts (w : world) (argv : list str) : quiet (_getopts w argv).
Proof.
  unfold _getopts. destruct (scan_mode (scan_argv argv)) as [m|];
    [|apply quiet_raise].
  destruct (negb (str_eqb m (lit "buildoptions"))); [apply quiet_raise|].
  apply quiet_bind; [|intros; apply quiet_ret].
  destruct (scan_builddir (scan_argv argv)) as [b|]; [|apply quiet_ret].
  destruct (str_eqb b (lit "-")); [apply quiet_ret | apply quiet_open].
Qed.

Lemma quiet_read (w : world) (s : stream) : quiet (with_stream s (load w s)).
Proof. apply quiet_with_stream, quiet_load. Qed.

Lemma writable_app (a b : str) : writable (a ++ b) = writable a && writable b.
Proof. apply forallb_app. Qed.

Lemma writable_concat (chunks : list str) :
  writable (List.concat chunks) = forallb writable chunks.
Proof.
  induction chunks as [|c t IH]; [reflexivity|].
  cbn [List.concat forallb]. now rewrite writable_app, IH.
Qed.

Lemma concat_separated (sep : str) (args : list str) :
  List.concat (separated sep args) = join sep args.
Proof.
  induction args as [|a t IH]; [reflexivity|].
  destruct t as [|b t']; [cbn; apply app_nil_r|].
  change (separated sep (a :: b :: t'))
    with (a :: sep :: separated sep (b :: t')).
  change (join sep (a :: b :: t')) with (a ++ sep ++ join sep (b :: t')).
  cbn [List.concat]. now rewrite IH.
Qed.

(** Writing touches no stream but standard output. *)
Lemma write_all_events (chunks : list str) :
  forall st r st', write_all chunks st = (r, st') -> events st' = events st.
Proof.
  induction chunks as [|c t IH]; intros st r st'.
  - now intros [= _ <-].
  - cbn [write_all]. unfold io_bind, write. destruct (writable c).
    + intro H. now rewrite (IH _ _ _ H).
    + now intros [= _ <-].
Qed.

Lemma write_all_writable (chunks : list str) :
  forall st,
    forallb writable chunks = true ->
    write_all chunks st
    = (Ok tt, Effects (events st) (stdout st ++ List.concat chunks)).
Proof.
  induction chunks as [|c t IH]; intros st H.
  - cbn. rewrite app_nil_r. now destruct st.
  - cbn [forallb] in H. apply andb_true_iff in H. destruct H as [Hc Ht].
    cbn [write_all List.concat]. unfold io_bind, write. rewrite Hc.
    rewrite (IH _ Ht). cbn [events stdout]. now rewrite app_assoc.
Qed.

(** The first text that cannot be encoded ends the writing; what came
    before it stays written. *)
Lemma write_all_stops (before after : list str) (c : str) :
  forall st,
    forallb writable before = true -> writable c = false ->
    write_all (before ++ c :: after) st
    = (Err (UnicodeEncodeError c),
       Effects (events st) (stdout st ++ List.concat before)).
Proof.
  induction before as [|b t IH]; intros st Hb Hc.
  - cbn [app write_all List.concat]. unfold io_bind, write. rewrite Hc.
    rewrite app_nil_r. now destruct st.
  - cbn [forallb] in Hb. apply andb_true_iff in Hb. destruct Hb as [Hb Ht].
    cbn [app write_all List.concat]. unfold io_bind, write. rewrite Hb.
    rewrite (IH _ Ht Hc). cbn [events stdout]. now rewrite app_assoc.
Qed.

(** A text that can be encoded whole is printed whole. *)
Lemma print_writable (args : list str) (st : effects) :
  writable (join [newline] args ++ [newline]) = true ->
  print args st
  = (Ok tt,
     Effects (events st) (stdout st ++ join [newline] args ++ [newline])).
Proof.
  intro H. unfold print.
  assert (E : List.concat (separated [newline] args ++ [[newline]])
              = join [newline] args ++ [newline]).
  { rewrite concat_app, concat_separated. cbn [List.concat].
    now rewrite app_nil_r. }
  rewrite write_all_writable by (now rewrite <- writable_concat, E).
  now rewrite E.
Qed.

Lemma print_events (args : list str) st r st' :
  print args st = (r, st') -> events st' = events st.
Proof. apply write_all_events. Qed.

(** The print of the body of the [try]: the text, then the newline. *)
Lemma print_text (text : str) (st : effects) :
  print [text] st
  = if writable text
    then if stdout_encodes newline
         then (Ok tt, Effects (events st) (stdout st ++ text ++ [newline]))
         else (Err (UnicodeEncodeError [newline]),
               Effects (events st) (stdout st ++ text))
    else (Err (UnicodeEncodeError text), st).
Proof.
  unfold print. cbn [separated app write_all]. unfold io_bind, write, io_ret.
  destruct (writable text); [|reflexivity].
  cbn [events stdout]. unfold writable at 1. cbn [forallb].
  rewrite andb_true_r. destruct (stdout_encodes newline); [|reflexivity].
  now rewrite <- app_assoc.
Qed.

(** When the body of the [try] raises, nothing has been printed yet,
    unless it is the newline after the text that cannot be encoded. *)
Lemma main_body_failure_quiet (w : world) (argv : list str) st e st' :
  stdout_encodes newline = true ->
  main_body w argv st = (Err e, st') -> stdout st' = stdout st.
Proof.
  intro Hnl. unfold main_body. unfold io_bind at 1.
  destruct (_getopts w argv st) as [[a|e1] st1] eqn:E1.
  - apply (@quiet_getopts w argv) in E1. unfold io_bind at 1.
    destruct (with_stream (istream a) (load w (istream a)) st1)
      as [[jd|e2] st2] eqn:E2.
    + apply (@quiet_read w (istream a)) in E2.
      unfold io_bind at 1. unfold io_lift at 1.
      destruct (complete_build_options jd) as [text|e3].
      * unfold io_bind. rewrite print_text, Hnl.
        destruct (writable text); [discriminate|].
        intros [= _ <-]. congruence.
      * intros [= _ <-]. congruence.
    + apply (@quiet_read w (istream a)) in E2.
      intros [= _ <-]. congruence.
  - apply (@quiet_getopts w argv) in E1.
    intros [= _ <-]. exact E1.
Qed.

(** The handler prints the stubs whole when they can be encoded. *)
Lemma emit_writable (e : exn) (st : effects) :
  writable (stub_text e) = true ->
  emit_message_on_exception e st
  = (Ok tt, Effects (events st) (stdout st ++ stub_text e)).
Proof.
  intro H. unfold emit_message_on_exception. now rewrite print_writable.
Qed.

(** Whatever the handler can print, it touches no stream and it returns 1
    or raises. *)
Lemma handler_outcome (e : exn) (st : effects) :
  exists r st',
    io_bind (emit_message_on_exception e) (fun _ => io_ret 1%Z) st = (r, st')
    /\ events st' = events st
    /\ (r = Ok 1%Z \/ exists e', r = Err e').
Proof.
  unfold io_bind.
  destruct (emit_message_on_exception e st) as [[u|e'] st'] eqn:E;
    apply print_events in E.
  - exists (Ok 1%Z), st'. repeat split; [exact E | now left].
  - exists (Err e'), st'. repeat split; [exact E | right; now exists e'].
Qed.

(** The exit status of a run whose body raises is 1, and the handler
    touches no stream. *)
Lemma failed_run (w : world) (argv : list str) (e : exn) (st' : effects) :
  main_body w argv (Effects [] []) = (Err e, st') ->
  fst (run w argv) = Ok 1%Z /\ events (snd (run w argv)) = events st'.
Proof.
  intro H. unfold run, main, try_except. rewrite H.
  destruct (handler_outcome e st') as (r & st2 & -> & Hev & [-> | [e' ->]]);
    split; assumption || reflexivity.
Qed.

(** C4, with one statement for each string of the failure text and for
    stubs that standard output can encode: whenever the body of [main]
    raises, the exit status is 1 and the handler touches no stream; the
    body has printed nothing when a newline can be encoded; and when the
    two stub definitions can be encoded the run prints them and nothing
    else, each body being one [_message] statement with the quoted
    diagnostic for each string [format_exception_only] gives for the
    failure, whatever the number of lines in that string. *)
Theorem failure_emits_stubs (w : world) (argv : list str) (e : exn)
    (st' : effects) :
  main_body w argv (Effects [] []) = (Err e, st') ->
  let body :=
    join [newline]
      (map (fun line =>
              lit "  _message "
                ++ quote (lit "cannot complete: " ++ rstrip line))
         (format_exception_only e)) in
  let stubs :=
    lit "__meson_project_buildoptions () {" ++ [newline]
      ++ body ++ [newline]
      ++ lit "}" ++ [newline]
      ++ lit "__meson_project_buildoption_choices () {" ++ [newline]
      ++ body ++ [newline]
      ++ lit "}" ++ [newline] in
  fst (run w argv) = Ok 1%Z
  /\ events (snd (run w argv)) = events st'
  /\ (stdout_encodes newline = true -> stdout st' = [])
  /\ (writable stubs = true ->
      run w argv = (Ok 1%Z, Effects (events st') stubs)).
Proof.
  intros H body stubs.
  destruct (failed_run _ _ H) as [Hstatus Hevents].
  split; [exact Hstatus|]. split; [exact Hevents|].
  assert (Hquiet : stdout_encodes newline = true -> stdout st' = [])
    by (intro Hnl; exact (@main_body_failure_quiet w argv _ _ _ Hnl H)).
  split; [exact Hquiet|].
  assert (Hstubs : stub_text e = stubs).
  { unfold stub_text, message_body, messages. rewrite map_map.
    cbn [join]. subst stubs body.
    repeat (rewrite <- app_assoc || rewrite <- app_comm_cons). reflexivity. }
  intro Hw.
  assert (Hnl : stdout_encodes newline = true).
  { subst stubs. rewrite writable_app in Hw.
    apply andb_true_iff in Hw. destruct Hw as [_ Hw].
    rewrite writable_app in Hw. apply andb_true_iff in Hw.
    destruct Hw as [Hw _]. unfold writable in Hw. cbn [forallb] in Hw.
    now rewrite andb_true_r in Hw. }
  unfold run, main, try_except. rewrite H. unfold io_bind.
  rewrite emit_writable by (now rewrite Hstubs).
  unfold io_ret. cbn [events stdout]. rewrite (Hquiet Hnl), Hstubs.
  reflexivity.
Qed.

Lemma last_cons {A : Type} (l : list A) :
  forall x d, last (x :: l) d = last l x.
Proof.
  induction l as [|y l IH]; intros x d; [reflexivity|].
  change (last (x :: y :: l) d) with (last (y :: l) d).
  now rewrite (IH y d), (IH y x).
Qed.

Lemma scan_mode_fold (argv : list str) :
  forall st,
    scan_mode (fold_left scan_arg argv st)
    = last (map Some (mode_flags argv)) (scan_mode st).
Proof.
  induction argv as [|i t IH]; intro st; [reflexivity|].
  cbn [fold_left]. rewrite IH. unfold mode_flags, scan_arg.
  cbn [filter]. destruct (startswith (lit "--") i).
  - cbn [map scan_mode]. now rewrite last_cons.
  - destruct (Nat.ltb 0 (scan_posopts st)); reflexivity.
Qed.

Lemma scan_mode_last_flag (argv : list str) :
  scan_mode (scan_argv argv) = last_flag argv.
Proof. unfold scan_argv. now rewrite scan_mode_fold. Qed.

(** C9, for the flag that decides: when the last mode flag is not
    buildoptions, or there is none, [_getopts] raises a [ValueError] before
    any stream is opened or read, and the run exits with status 1. *)
Theorem usage_failure_reads_nothing (w : world) (argv : list str) :
  last_flag argv <> Some (lit "buildoptions") ->
  (exists msg,
     main_body w argv (Effects [] []) = (Err (ValueError msg), Effects [] []))
  /\ fst (run w argv) = Ok 1%Z
  /\ events (snd (run w argv)) = [].
Proof.
  intro Hlast.
  assert (H : exists msg,
             main_body w argv (Effects [] [])
             = (Err (ValueError msg), Effects [] [])).
  { unfold main_body, io_bind, _getopts.
    rewrite scan_mode_last_flag.
    destruct (last_flag argv) as [m|]; [|eexists; reflexivity].
    destruct (str_eqb m (lit "buildoptions")) eqn:E.
    - apply str_eqb_eq in E. congruence.
    - cbn [negb]. eexists. reflexivity. }
  split; [exact H|]. destruct H as [msg H].
  exact (failed_run _ _ H).
Qed.

(** ** Name completion and the dispatch table *)

Lemma dict_get_str_keys {V : Type} (k : str) (d : dict str V) :
  dict_get key_eqb (JStr k) (str_keys d) = dict_get str_eqb k d.
Proof.
  induction d as [|[x v] t IH]; [reflexivity|].
  cbn [str_keys map dict_get fst snd key_eqb]. fold (str_keys (float := float) t).
  now rewrite IH.
Qed.

Lemma dict_setdefault_str_keys {V : Type} (k : str) (v : V) (d : dict str V) :
  dict_setdefault key_eqb (JStr k) v (str_keys d)
  = str_keys (dict_setdefault str_eqb k v d).
Proof.
  unfold dict_setdefault. rewrite dict_get_str_keys.
  destruct (dict_get str_eqb k d); [reflexivity|].
  unfold str_keys. now rewrite map_app.
Qed.

Lemma dict_modify_str_keys {V : Type} (k : str) (f : V -> V) (d : dict str V) :
  dict_modify key_eqb (JStr k) f (str_keys d)
  = str_keys (dict_modify str_eqb k f d).
Proof.
  induction d as [|[x v] t IH]; [reflexivity|].
  cbn [str_keys map dict_modify fst snd key_eqb].
  fold (str_keys (float := float) t).
  destruct (str_eqb k x); [reflexivity|]. now rewrite IH.
Qed.

Lemma dict_pop_str_keys {V : Type} (k : str) (d : dict str V) :
  dict_pop key_eqb (JStr k) (str_keys d)
  = match dict_pop str_eqb k d with
    | Some (v, d') => Some (v, str_keys d')
    | None => None
    end.
Proof.
  induction d as [|[x v] t IH]; [reflexivity|].
  cbn [str_keys map dict_pop fst snd key_eqb].
  fold (str_keys (float := float) t).
  destruct (str_eqb k x); [reflexivity|]. rewrite IH.
  destruct (dict_pop str_eqb k t) as [[w d']|]; reflexivity.
Qed.

(** The loop body reads its record, then updates the dictionaries. *)
Lemma loop_body_read (st : sections * switches) (opt : value) :
  loop_body st opt = (it <- read_item opt ;; Ok (add_item st it))%result.
Proof.
  unfold loop_body, read_item, add_item. destruct st as [bs sw].
  destruct (getitem opt (lit "section")) as [gr|]; [|reflexivity].
  destruct (getitem opt (lit "name")) as [name|]; [|reflexivity].
  destruct (getitem opt (lit "description")) as [d|]; [|reflexivity].
  destruct (generate_hint opt) as [h|]; [|reflexivity].
  cbn [bind].
  destruct name; try reflexivity. cbn [bind].
  destruct (hashable gr); [|reflexivity]. cbn [bind].
  destruct (generate_compadd_choices opt); reflexivity.
Qed.

Lemma foldM_loop_body (opts : list value) :
  forall st,
    foldM loop_body opts st
    = (items <- mapM read_item opts ;; Ok (fold_left add_item items st))%result.
Proof.
  induction opts as [|o t IH]; intro st; [reflexivity|].
  cbn [foldM mapM]. rewrite loop_body_read.
  destruct (read_item o) as [it|e]; [|reflexivity].
  cbn [bind]. rewrite IH.
  destruct (mapM read_item t); reflexivity.
Qed.

(** The two dictionaries after the loop, for sections that are strings. *)
Lemma collected (items : list item) :
  Forall labelled items ->
  fold_left add_item items ([], [])
  = (str_keys
       (tabulate (fun k => values_of k (section_rows items))
          (first_seen (map fst (section_rows items)))),
     tabulate (fun k => last_value k (name_rows items))
       (first_seen (map fst (name_rows items)))).
Proof.
  induction items as [|it items IH] using rev_ind; intro HF; [reflexivity|].
  apply Forall_app in HF. destruct HF as [HF Hit].
  apply Forall_inv in Hit. unfold labelled in Hit.
  rewrite fold_left_app. cbn [fold_left]. rewrite (IH HF).
  unfold add_item. cbn [fst snd]. rewrite Hit.
  rewrite dict_setdefault_str_keys, dict_modify_str_keys, add_to_group,
    set_branch.
  unfold section_rows, name_rows. rewrite !map_app. reflexivity.
Qed.

Lemma existsb_first_seen (x : str) (l : list str) :
  existsb (str_eqb x) (first_seen l) = existsb (str_eqb x) l.
Proof.
  destruct (existsb (str_eqb x) l) eqn:E.
  - apply (existsb_eqb_In str_eqb_eq). apply first_seen_In.
    now apply (existsb_eqb_In str_eqb_eq).
  - apply (existsb_eqb_notin str_eqb_eq). rewrite first_seen_In.
    now apply (existsb_eqb_notin str_eqb_eq).
Qed.

Lemma user_first_grouped {h : str -> list str} (labels : list str) :
  user_first (str_keys (tabulate h (first_seen labels)))
  = str_keys (tabulate h (section_order labels)).
Proof.
  unfold user_first, section_order.
  rewrite dict_pop_str_keys,
    (dict_pop_tabulate str_eqb_eq) by apply first_seen_NoDup.
  rewrite existsb_first_seen.
  destruct (existsb (str_eqb (lit "user")) labels); reflexivity.
Qed.

Lemma section_clauses {h : str -> list str} (keys : list str) :
  mapM section_clause (str_keys (tabulate h keys))
  = Ok (map (fun g => (alt_decl (zsh_tag g) (h g),
                       alt_word (zsh_tag g) (JStr g))) keys).
Proof.
  induction keys as [|g t IH]; [reflexivity|].
  cbn [tabulate str_keys map mapM section_clause fst snd bind].
  fold (tabulate h t). fold (str_keys (float := float) (tabulate h t)).
  now rewrite IH.
Qed.

(** The generated text, said without dictionaries: one array and one
    alternative for each label of [section_order], holding the specs of the
    records of that section in input order; one branch for each distinct
    name, in order of first appearance, taken from the last record of
    that name. *)
Lemma generation (i_data : value) (opts : list value) (items : list item) :
  py_iter i_data = Ok opts ->
  mapM read_item opts = Ok items ->
  Forall labelled items ->
  complete_build_options i_data
  = Ok (join [newline]
          [buildoptions_function
             (map (fun g => alt_decl (zsh_tag g)
                              (values_of g (section_rows items)))
                (section_order (map fst (section_rows items))))
             (map (fun g => alt_word (zsh_tag g) (JStr g))
                (section_order (map fst (section_rows items))));
           buildoption_choices_function
             (map (fun n => last_value n (name_rows items))
                (first_seen (map fst (name_rows items))))]).
Proof.
  intros Hopts Hitems HF.
  unfold complete_build_options, collect. rewrite Hopts. cbn [bind].
  rewrite foldM_loop_body, Hitems. cbn [bind]. rewrite (collected HF).
  unfold render. rewrite user_first_grouped, section_clauses. cbn [bind].
  rewrite !map_map. cbn [fst snd].
  unfold tabulate. rewrite map_map. reflexivity.
Qed.

(** A key that equals a string key is that string. *)
Lemma key_eqb_str (x : value) (s : str) :
  key_eqb x (JStr s) = true -> x = JStr s.
Proof.
  destruct x; cbn [key_eqb]; try discriminate.
  intro E. apply str_eqb_eq in E. now subst.
Qed.

Lemma str_key_eqb (s : str) (x : value) :
  key_eqb (JStr s) x = true -> x = JStr s.
Proof.
  destruct x; cbn [key_eqb]; try discriminate.
  intro E. apply str_eqb_eq in E. now subst.
Qed.

(** The loop only adds keys, and the section of every record it has seen
    is, or equals, a key. *)
Lemma add_item_keys (st : sections * switches) (it : item) :
  (forall k, In k (map fst (fst st)) -> In k (map fst (fst (add_item st it))))
  /\ exists k, In k (map fst (fst (add_item st it)))
               /\ (k = item_section it \/ key_eqb (item_section it) k = true).
Proof.
  unfold add_item. cbn [fst]. rewrite dict_modify_keys.
  unfold dict_setdefault.
  destruct (dict_get key_eqb (item_section it) (fst st)) as [v|] eqn:E.
  - split; [auto|].
    destruct (dict_get_key _ _ E) as (k & Hin & Hk).
    exists k. split; [exact Hin | now right].
  - rewrite map_app. cbn [map fst]. split.
    + intros k Hk. apply in_or_app. now left.
    + exists (item_section it). split; [|now left].
      apply in_or_app. right. now left.
Qed.

Lemma collected_keys (items : list item) :
  forall st,
    (forall k, In k (map fst (fst st)) ->
               In k (map fst (fst (fold_left add_item items st))))
    /\ (forall it, In it items ->
          exists k, In k (map fst (fst (fold_left add_item items st)))
                    /\ (k = item_section it
                        \/ key_eqb (item_section it) k = true)).
Proof.
  induction items as [|it t IH]; intro st; cbn [fold_left].
  - split; [auto | intros ? []].
  - destruct (IH (add_item st it)) as [Hmono Hseen].
    destruct (add_item_keys st it) as [Hstep (k & Hin & Hk)].
    split; [auto|].
    intros it' [<-|Hin']; [|now apply Hseen].
    exists k. split; [now apply Hmono | exact Hk].
Qed.

Lemma section_clauses_keys (l : sections) (clauses : list (str * str)) :
  mapM section_clause l = Ok clauses ->
  forall k, In k (map fst l) -> exists s, k = JStr s.
Proof.
  revert clauses. induction l as [|[x v] t IH]; intros clauses; [intros _ ? []|].
  cbn [mapM section_clause]. destruct x; try discriminate.
  cbn [bind]. destruct (mapM section_clause t) as [cs|]; [|discriminate].
  intros _ k [<-|Hin]; [now eexists | exact (IH _ eq_refl k Hin)].
Qed.

Lemma user_first_keys (d : sections) (k : value) :
  In k (map fst d) ->
  In k (map fst (user_first d)) \/ k = JStr (lit "user").
Proof.
  unfold user_first. intro Hin.
  destruct (dict_pop key_eqb (JStr (lit "user")) d) as [[u dd]|] eqn:E;
    [|now left].
  destruct (dict_pop_keys _ E k Hin) as [H|H].
  - left. now right.
  - right. now apply str_key_eqb.
Qed.

(** When a text is generated, the records were all read and their
    sections are strings. *)
Lemma generated_items (i_data : value) (opts : list value) (out : str) :
  py_iter i_data = Ok opts ->
  complete_build_options i_data = Ok out ->
  exists items, mapM read_item opts = Ok items /\ Forall labelled items.
Proof.
  intros Hopts Hout.
  unfold complete_build_options, collect in Hout.
  rewrite Hopts in Hout. cbn [bind] in Hout.
  rewrite foldM_loop_body in Hout.
  destruct (mapM read_item opts) as [items|]; [|discriminate].
  exists items. split; [reflexivity|].
  cbn [bind] in Hout.
  destruct (fold_left add_item items ([], [])) as [bs sw] eqn:Efold.
  unfold render in Hout.
  destruct (mapM section_clause (user_first bs)) as [clauses|] eqn:Ecl;
    [|discriminate].
  assert (Hkeys : forall k, In k (map fst bs) -> exists s, k = JStr s).
  { intros k Hin. destruct (user_first_keys _ _ Hin) as [H|H].
    - exact (section_clauses_keys _ Ecl _ H).
    - exists (lit "user"). exact H. }
  apply Forall_forall. intros it Hin.
  destruct (proj2 (collected_keys items ([], [])) it Hin) as (k & Hk & Hor).
  rewrite Efold in Hk. cbn [fst] in Hk.
  destruct (Hkeys k Hk) as [s ->].
  unfold labelled. destruct Hor as [<-|H]; [reflexivity|].
  apply key_eqb_str in H. now rewrite H.
Qed.

Lemma read_item_section (o : value) (it : item) :
  read_item o = Ok it -> getitem o (lit "section") = Ok (item_section it).
Proof.
  unfold read_item.
  destruct (getitem o (lit "section")) as [gr|]; [|discriminate].
  destruct (getitem o (lit "name")) as [name|]; [|discriminate].
  destruct (getitem o (lit "description")) as [d|]; [|discriminate].
  destruct (generate_hint o) as [h|]; [|discriminate].
  cbn [bind]. destruct name; try discriminate. cbn [bind].
  destruct (hashable gr); [|discriminate]. cbn [bind].
  destruct (generate_compadd_choices o); [|discriminate].
  now intros [= <-].
Qed.

Lemma read_items_sections (opts : list value) :
  forall items,
    mapM read_item opts = Ok items ->
    mapM (fun o => getitem o (lit "section")) opts
    = Ok (map item_section items).
Proof.
  induction opts as [|o t IH]; intros items.
  - now intros [= <-].
  - cbn [mapM]. destruct (read_item o) as [it|] eqn:E; [|discriminate].
    cbn [bind]. destruct (mapM read_item t) as [its|]; [|discriminate].
    intros [= <-]. rewrite (read_item_section _ E), (IH its eq_refl).
    reflexivity.
Qed.

Lemma section_order_In (labels : list str) (g : str) :
  In g (section_order labels) <-> In g labels.
Proof.
  unfold section_order.
  destruct (existsb (str_eqb (lit "user")) labels) eqn:E;
    [|apply first_seen_In].
  apply (existsb_eqb_In str_eqb_eq) in E.
  cbn [In]. rewrite filter_In, first_seen_In, negb_true_iff, str_eqb_neq.
  destruct (list_eq_dec N.eq_dec g (lit "user")) as [->|Hn].
  - tauto.
  - split; [intros [H|[H _]]; congruence || exact H | intro H; now right].
Qed.

Lemma section_order_NoDup (labels : list str) : NoDup (section_order labels).
Proof.
  unfold section_order.
  destruct (existsb (str_eqb (lit "user")) labels);
    [|apply first_seen_NoDup].
  constructor.
  - rewrite filter_In, negb_true_iff, str_eqb_neq. tauto.
  - apply NoDup_filter, first_seen_NoDup.
Qed.

(** The templates of the generated text, written out. *)
Lemma alt_decl_text (tag : str) (v : list str) :
  alt_decl tag v
  = lit "  local -a __ndescgroup_" ++ tag ++ lit "=(" ++ [newline]
      ++ lit "    " ++ join ([newline] ++ lit "    ") v ++ [newline]
      ++ lit "  )".
Proof.
  unfold alt_decl, specs_arr. rewrite <- ?app_assoc. reflexivity.
Qed.

Lemma alt_word_text (tag g : str) :
  alt_word tag (JStr g)
  = quote (tag ++ lit "-options:" ++ g ++ lit " option:(( " ++ [dquote]
             ++ lit "${(@)__ndescgroup_" ++ tag ++ lit "}" ++ [dquote]
             ++ lit " ))").
Proof.
  unfold alt_word, specs_arr, dq. cbn [py_str]. f_equal.
  repeat (rewrite <- app_assoc || rewrite <- app_comm_cons). reflexivity.
Qed.

Lemma buildoptions_function_text (alt_decls alt_words : list str) :
  buildoptions_function alt_decls alt_words
  = lit "__meson_project_buildoptions() {" ++ [newline]
      ++ lit "  # This function loops over tag labels itself." ++ [newline]
      ++ join [newline] alt_decls ++ [newline]
      ++ lit "  local -a alternative_argv=( " ++ [dquote] ++ lit "$@"
      ++ [dquote] ++ lit " )" ++ [newline]
      ++ lit "  _alternative -O alternative_argv "
      ++ join (lit " ") alt_words ++ [newline]
      ++ lit "}" ++ [newline].
Proof.
  unfold buildoptions_function, dq. cbn [join].
  repeat (rewrite <- app_assoc || rewrite <- app_comm_cons). reflexivity.
Qed.

Lemma buildoption_choices_function_text (entries : list str) :
  buildoption_choices_function entries
  = lit "__meson_project_buildoption_choices() {" ++ [newline]
      ++ lit "  # This function loops over tag labels itself." ++ [newline]
      ++ lit "  local m_optname=" ++ [dquote] ++ lit "$1" ++ [dquote]
      ++ [newline]
      ++ lit "  local descr" ++ [newline]
      ++ lit "  case " ++ [dquote] ++ lit "$m_optname" ++ [dquote]
      ++ lit " in" ++ [newline]
      ++ join [newline] entries ++ [newline]
      ++ lit "  *)" ++ [newline]
      ++ lit "    _message " ++ [dquote]
      ++ lit "unknown option; cannot offer choices" ++ [dquote]
      ++ lit "  ;;" ++ [newline]
      ++ lit "  esac" ++ [newline]
      ++ lit "}" ++ [newline].
Proof.
  unfold buildoption_choices_function, dq. cbn [join].
  repeat (rewrite <- app_assoc || rewrite <- app_comm_cons). reflexivity.
Qed.

Lemma values_of_rows {A : Type} (f g : A -> str) (k : str) (l : list A) :
  values_of k (map (fun a => (f a, g a)) l)
  = map g (filter (fun a => str_eqb (f a) k) l).
Proof.
  unfold values_of. induction l as [|a t IH]; [reflexivity|].
  cbn [map filter fst]. destruct (str_eqb (f a) k); cbn [map snd];
    now rewrite IH.
Qed.

(** What the loop reads from a record whose section is a string. *)
Lemma read_item_row (o : value) (it : item) :
  read_item o = Ok it -> labelled it ->
  exists r, reads o r /\ it = item_of_row r.
Proof.
  unfold read_item.
  destruct (getitem o (lit "section")) as [gr|] eqn:Eg; [|discriminate].
  destruct (getitem o (lit "name")) as [name|] eqn:En; [|discriminate].
  destruct (getitem o (lit "description")) as [d|] eqn:Ed; [|discriminate].
  destruct (generate_hint o) as [h|] eqn:Eh; [|discriminate].
  cbn [bind]. destruct name as [| | | |sname| |]; try discriminate.
  cbn [bind]. destruct (hashable gr); [|discriminate]. cbn [bind].
  destruct (generate_compadd_choices o) as [block|] eqn:Eb; [|discriminate].
  intros [= <-] Hl. unfold labelled in Hl. cbn [item_section] in Hl.
  exists (Row (label_of gr) sname (py_str d) h block). split.
  - unfold reads. cbn [row_section row_name row_descr row_hint row_block].
    rewrite <- Hl. repeat split; try assumption. now exists d.
  - unfold item_of_row, row_spec, row_branch, describe_spec, switch_entry, dq.
    cbn [row_section row_name row_descr row_hint row_block join].
    rewrite <- Hl. f_equal.
    repeat (rewrite <- app_assoc || rewrite <- app_comm_cons). reflexivity.
Qed.

Lemma read_items_rows (opts : list value) :
  forall items,
    mapM read_item opts = Ok items -> Forall labelled items ->
    exists rows, Forall2 reads opts rows /\ items = map item_of_row rows.
Proof.
  induction opts as [|o t IH]; intros items.
  - intros [= <-] _. exists []. split; [constructor | reflexivity].
  - cbn [mapM]. destruct (read_item o) as [it|] eqn:E; [|discriminate].
    cbn [bind]. destruct (mapM read_item t) as [its|]; [|discriminate].
    intros [= <-] HF. inversion HF as [|? ? Hit Hits]; subst.
    destruct (read_item_row _ E Hit) as (r & Hr & ->).
    destruct (IH its eq_refl Hits) as (rows & HR & ->).
    exists (r :: rows). split; [now constructor | reflexivity].
Qed.

(** The generated text, said with the rows of the records: one array and
    one alternative for each label of [section_order], the array holding
    the specs of the rows of that section in input order; one branch for
    each distinct name, in order of first appearance, the one of the last
    row of that name. *)
Lemma generation_rows (i_data : value) (opts : list value) (out : str) :
  py_iter i_data = Ok opts ->
  complete_build_options i_data = Ok out ->
  exists rows : list row,
    Forall2 reads opts rows
    /\ out
       = buildoptions_function
           (map (fun g =>
                   alt_decl (zsh_tag g)
                     (map row_spec
                        (filter (fun r => str_eqb (row_section r) g) rows)))
              (section_order (map row_section rows)))
           (map (fun g => alt_word (zsh_tag g) (JStr g))
              (section_order (map row_section rows)))
           ++ [newline]
           ++ buildoption_choices_function
                (map (fun n =>
                        last (map row_branch
                                (filter (fun r => str_eqb (row_name r) n)
                                   rows)) [])
                   (first_seen (map row_name rows))).
Proof.
  intros Hopts Hout.
  destruct (generated_items _ Hopts Hout) as (items & Hitems & HF).
  destruct (read_items_rows _ Hitems HF) as (rows & HR & ->).
  exists rows. split; [exact HR|].
  rewrite (generation _ Hopts Hitems HF) in Hout. injection Hout as <-.
  assert (Es : section_rows (map item_of_row rows)
               = map (fun r => (row_section r, row_spec r)) rows)
    by (unfold section_rows; now rewrite map_map).
  assert (En : name_rows (map item_of_row rows)
               = map (fun r => (row_name r, row_branch r)) rows)
    by (unfold name_rows; now rewrite map_map).
  rewrite Es, En, !map_map. cbn [fst join]. unfold last_value.
  rewrite (map_ext _ _
             (fun g => f_equal (alt_decl (zsh_tag g))
                         (values_of_rows row_section row_spec g rows))).
  rewrite (map_ext _ _
             (fun n => f_equal (fun l => last l [])
                         (values_of_rows row_name row_branch n rows))).
  reflexivity.
Qed.

Lemma filter_no_name (n : str) (rows : list row) :
  ~ In n (map row_name rows) ->
  filter (fun r => str_eqb (row_name r) n) rows = [].
Proof.
  induction rows as [|r t IH]; intro Hn; [reflexivity|].
  cbn [filter]. destruct (str_eqb (row_name r) n) eqn:E.
  - apply str_eqb_eq in E. exfalso. apply Hn. now left.
  - apply IH. intro H. apply Hn. now right.
Qed.

Lemma section_order_user (labels : list str) :
  (In (lit "user") labels -> hd [] (section_order labels) = lit "user")
  /\ filter (fun g => negb (str_eqb g (lit "user"))) (section_order labels)
     = filter (fun g => negb (str_eqb g (lit "user"))) (first_seen labels).
Proof.
  unfold section_order. split.
  - intro Hu. apply (existsb_eqb_In str_eqb_eq) in Hu. now rewrite Hu.
  - destruct (existsb (str_eqb (lit "user")) labels); [|reflexivity].
    cbn [filter]. rewrite str_eqb_refl. cbn [negb].
    induction (first_seen labels) as [|x t IH]; [reflexivity|].
    cbn [filter]. destruct (negb (str_eqb x (lit "user"))) eqn:E;
      cbn [filter]; rewrite ?E, IH; reflexivity.
Qed.

(** C6: whenever a text is generated, every record has a string for its
    section, and the text starts with the name-completion function, which
    holds one array declaration and one alternative for each label of
    [section_order]: the section user first when the input has it, the
    other sections in the order of their first record, every section of
    the input once; the array of a section holds the specs of its records
    in input order. *)
Theorem sections_user_first (i_data : value) (opts : list value) (out : str) :
  py_iter i_data = Ok opts ->
  complete_build_options i_data = Ok out ->
  exists rows : list row,
    Forall2 reads opts rows
    /\ let labels := map row_section rows in
       let spec r :=
         quote (fsemic (row_name r) ++ lit ":"
                  ++ fsemic (row_descr r ++ lit " " ++ row_hint r)) in
       let array g :=
         map spec (filter (fun r => str_eqb (row_section r) g) rows) in
       let declaration g :=
         lit "  local -a __ndescgroup_" ++ zsh_tag g ++ lit "=(" ++ [newline]
           ++ lit "    " ++ join ([newline] ++ lit "    ") (array g)
           ++ [newline] ++ lit "  )" in
       let alternative g :=
         quote (zsh_tag g ++ lit "-options:" ++ g ++ lit " option:(( "
                  ++ [dquote] ++ lit "${(@)__ndescgroup_" ++ zsh_tag g
                  ++ lit "}" ++ [dquote] ++ lit " ))") in
       (exists choices_function : str,
          out
          = lit "__meson_project_buildoptions() {" ++ [newline]
              ++ lit "  # This function loops over tag labels itself."
              ++ [newline]
              ++ join [newline] (map declaration (section_order labels))
              ++ [newline]
              ++ lit "  local -a alternative_argv=( " ++ [dquote] ++ lit "$@"
              ++ [dquote] ++ lit " )" ++ [newline]
              ++ lit "  _alternative -O alternative_argv "
              ++ join (lit " ") (map alternative (section_order labels))
              ++ [newline]
              ++ lit "}" ++ [newline] ++ [newline]
              ++ choices_function)
       /\ NoDup (section_order labels)
       /\ (forall g, In g (section_order labels) <-> In g labels)
       /\ (In (lit "user") labels -> hd [] (section_order labels) = lit "user")
       /\ filter (fun g => negb (str_eqb g (lit "user")))
            (section_order labels)
          = filter (fun g => negb (str_eqb g (lit "user")))
              (first_seen labels).
Proof.
  intros Hopts Hout.
  destruct (generation_rows _ Hopts Hout) as (rows & HR & ->).
  exists rows. split; [exact HR|].
  intros labels spec array declaration alternative.
  split; [|split; [apply section_order_NoDup|
                   split; [apply section_order_In|
                           apply section_order_user]]].
  eexists. rewrite buildoptions_function_text.
  rewrite (map_ext _ _ (fun g => alt_decl_text (zsh_tag g) _)).
  rewrite (map_ext _ _ (fun g => alt_word_text (zsh_tag g) g)).
  fold labels.
  repeat (rewrite <- app_assoc || rewrite <- app_comm_cons). reflexivity.
Qed.

(** C10: whenever a text is generated, every record, whatever its name,
    has its spec in the array of its section in the name-completion
    function, one spec for each record of the section, while the
    value-completion function has one branch for each distinct name, in
    the order of the first records of the names, and that branch is the
    one of the last record of the name. *)
Theorem duplicate_names (i_data : value) (opts : list value) (out : str) :
  py_iter i_data = Ok opts ->
  complete_build_options i_data = Ok out ->
  exists rows : list row,
    Forall2 reads opts rows
    /\ let sections := section_order (map row_section rows) in
       let spec r :=
         quote (fsemic (row_name r) ++ lit ":"
                  ++ fsemic (row_descr r ++ lit " " ++ row_hint r)) in
       let array g :=
         map spec (filter (fun r => str_eqb (row_section r) g) rows) in
       let declaration g :=
         lit "  local -a __ndescgroup_" ++ zsh_tag g ++ lit "=(" ++ [newline]
           ++ lit "    " ++ join ([newline] ++ lit "    ") (array g)
           ++ [newline] ++ lit "  )" in
       let alternative g :=
         quote (zsh_tag g ++ lit "-options:" ++ g ++ lit " option:(( "
                  ++ [dquote] ++ lit "${(@)__ndescgroup_" ++ zsh_tag g
                  ++ lit "}" ++ [dquote] ++ lit " ))") in
       let names := first_seen (map row_name rows) in
       let branch r :=
         lit "  (" ++ [dquote] ++ row_name r ++ [dquote] ++ lit ")"
           ++ [newline] ++ row_block r ++ [newline] ++ lit "  ;;" in
       let branch_of n :=
         last (map branch (filter (fun r => str_eqb (row_name r) n) rows))
           [] in
       out
       = lit "__meson_project_buildoptions() {" ++ [newline]
           ++ lit "  # This function loops over tag labels itself."
           ++ [newline]
           ++ join [newline] (map declaration sections) ++ [newline]
           ++ lit "  local -a alternative_argv=( " ++ [dquote] ++ lit "$@"
           ++ [dquote] ++ lit " )" ++ [newline]
           ++ lit "  _alternative -O alternative_argv "
           ++ join (lit " ") (map alternative sections) ++ [newline]
           ++ lit "}" ++ [newline] ++ [newline]
           ++ lit "__meson_project_buildoption_choices() {" ++ [newline]
           ++ lit "  # This function loops over tag labels itself."
           ++ [newline]
           ++ lit "  local m_optname=" ++ [dquote] ++ lit "$1" ++ [dquote]
           ++ [newline]
           ++ lit "  local descr" ++ [newline]
           ++ lit "  case " ++ [dquote] ++ lit "$m_optname" ++ [dquote]
           ++ lit " in" ++ [newline]
           ++ join [newline] (map branch_of names) ++ [newline]
           ++ lit "  *)" ++ [newline]
           ++ lit "    _message " ++ [dquote]
           ++ lit "unknown option; cannot offer choices" ++ [dquote]
           ++ lit "  ;;" ++ [newline]
           ++ lit "  esac" ++ [newline]
           ++ lit "}" ++ [newline]
       /\ (forall r, In r rows ->
             In (row_section r) sections
             /\ In (spec r) (array (row_section r)))
       /\ (forall g,
             List.length (array g)
             = List.length
                 (filter (fun r => str_eqb (row_section r) g) rows))
       /\ NoDup names
       /\ (forall n, In n names <-> In n (map row_name rows))
       /\ (forall before r after,
             rows = before ++ r :: after ->
             ~ In (row_name r) (map row_name after) ->
             branch_of (row_name r) = branch r).
Proof.
  intros Hopts Hout.
  destruct (generation_rows _ Hopts Hout) as (rows & HR & ->).
  exists rows. split; [exact HR|].
  intros sections spec array declaration alternative names branch branch_of.
  split; [|split; [|split; [|split; [|split]]]].
  - rewrite buildoptions_function_text, buildoption_choices_function_text.
    rewrite (map_ext _ _ (fun g => alt_decl_text (zsh_tag g) _)).
    rewrite (map_ext _ _ (fun g => alt_word_text (zsh_tag g) g)).
    fold sections.
    repeat (rewrite <- app_assoc || rewrite <- app_comm_cons). reflexivity.
  - intros r Hin. split.
    + apply section_order_In. now apply in_map.
    + unfold array. apply in_map. apply filter_In. split; [exact Hin|].
      apply str_eqb_refl.
  - intro g. unfold array. apply length_map.
  - apply first_seen_NoDup.
  - intro n. apply first_seen_In.
  - intros before r after -> Hafter. unfold branch_of.
    rewrite filter_app. cbn [filter]. rewrite str_eqb_refl.
    rewrite (@filter_no_name (row_name r) after Hafter), map_app. cbn [map].
    apply last_last.
Qed.

(** A row holds the section and the name of its record. *)
Lemma reads_label (o : value) (r : row) (s : str) :
  reads o r -> getitem o (lit "section") = Ok (JStr s) -> row_section r = s.
Proof. intros [H _] E. rewrite E in H. now injection H. Qed.

Lemma reads_name (o : value) (r : row) (s : str) :
  reads o r -> getitem o (lit "name") = Ok (JStr s) -> row_name r = s.
Proof. intros (_ & H & _) E. rewrite E in H. now injection H. Qed.

End Properties.

(** ** The properties at sample inputs *)

Lemma sample_stdout_ascii (c : char) :
  (c <? 128)%N = true -> stdout_encodes (Runtime := sample_runtime) c = true.
Proof.
  intro H. apply N.ltb_lt in H. cbn [stdout_encodes sample_runtime].
  unfold is_surrogate.
  replace (55296 <=? c)%N with false by (symmetry; apply N.leb_gt; lia).
  reflexivity.
Qed.

Lemma boolean_choices_and_hint_witness :
  getitem (rt := sample_runtime) sample_bool (lit "type")
  = Ok (JStr (lit "boolean"))
  /\ generate_choices (rt := sample_runtime) sample_bool
     = Ok (JArr [JStr (lit "false"); JStr (lit "true")])
  /\ generate_hint (rt := sample_runtime) sample_bool = Ok (lit "<true>").
Proof.
  destruct (@boolean_choices_and_hint sample_runtime sample_bool eq_refl)
    as (H1 & H2 & _).
  split; [reflexivity|]. split; [exact H1 | apply H2; reflexivity].
Defined.

Lemma install_umask_hint_witness :
  (0 <= 18)%Z
  /\ (18 < 8 ^ Z.of_nat (Nat.max 640 (@int_max_str_digits sample_runtime)))%Z
  /\ generate_hint (rt := sample_runtime) (sample_umask 18)
     = Ok (lit "<0022>").
Proof.
  assert (H : (18 < 8 ^ Z.of_nat
                         (Nat.max 640 (@int_max_str_digits sample_runtime)))%Z)
    by (vm_compute; reflexivity).
  split; [lia|]. split; [exact H|].
  refine (proj2 (proj2 (@install_umask_hint sample_runtime (sample_umask 18)
                          (JStr (lit "integer")) 18%Z _ _ _ _ _
                          (or_intror H))) eq_refl);
    first [reflexivity | lia].
Defined.

(** C8 as stated fails for a negative value: [oct(-18)[2:]] is o22, which
    [int] refuses, so there is no hint at all.  It fails as well for a
    value from 8^4300 on under the limit of 4300 digits: the octal numeral
    of 8^4300 has 4301 digits, and [int] refuses it for its length. *)
Lemma umask_without_hint :
  (~ exists h,
       generate_hint (rt := sample_runtime) (sample_umask (-18)) = Ok h)
  /\ generate_hint (rt := sample_runtime) (sample_umask (8 ^ 4300))
     = Err (ValueError
              (lit "Exceeds the limit (4300 digits) for integer string "
                 ++ lit "conversion: value has 4301 digits; "
                 ++ lit "use sys.set_int_max_str_digits() "
                 ++ lit "to increase the limit")).
Proof.
  split.
  - intros [h H]. vm_compute in H. discriminate H.
  - vm_compute. reflexivity.
Qed.


Lemma failure_emits_stubs_witness :
  main_body (sample_world JNull) [] (Effects [] [])
  = (Err (ValueError (lit "completion mode is not specified")), Effects [] [])
  /\ run (sample_world JNull) []
     = (Ok 1%Z,
        Effects []
          (lit "__meson_project_buildoptions () {" ++ [newline]
             ++ lit "  _message 'cannot complete: ValueError: completion mode is not specified'"
             ++ [newline] ++ lit "}" ++ [newline]
             ++ lit "__meson_project_buildoption_choices () {" ++ [newline]
             ++ lit "  _message 'cannot complete: ValueError: completion mode is not specified'"
             ++ [newline] ++ lit "}" ++ [newline])).
Proof.
  split; [reflexivity|].
  refine (proj2 (proj2 (proj2
            (@failure_emits_stubs sample_runtime (sample_world JNull) []
               (ValueError (lit "completion mode is not specified"))
               (Effects [] []) eq_refl))) _).
  vm_compute. reflexivity.
Defined.

(** C4 as stated fails twice.  A failure text of two lines gives one
    [_message] statement, which runs over two lines, and not one statement
    for each line: the mode a, newline, b is unknown, the text of the
    [ValueError] is one string for [format_exception_only], and quoting
    keeps the newline in it.  And a diagnostic that standard output cannot
    encode leaves no stub at all: with a lone surrogate for the mode, which
    is how a byte of the command line that cannot be decoded comes in, the
    handler raises while it prints, the first line of the first stub is
    all that is out, and the exit status is 1 all the same. *)
Lemma stubs_not_one_per_line :
  let argv := [lit "--a" ++ [newline] ++ lit "b"] in
  let e :=
    ValueError (lit "unknown completion mode: a" ++ [newline] ++ lit "b") in
  let statement :=
    lit "  _message 'cannot complete: ValueError: unknown completion mode: a"
      ++ [newline] ++ lit "b'" in
  main_body (sample_world JNull) argv (Effects [] []) = (Err e, Effects [] [])
  /\ @format_exception_only sample_runtime e
     = [lit "ValueError: unknown completion mode: a" ++ [newline] ++ lit "b"
          ++ [newline]]
  /\ run (sample_world JNull) argv
     = (Ok 1%Z,
        Effects []
          (lit "__meson_project_buildoptions () {" ++ [newline]
             ++ statement ++ [newline] ++ lit "}" ++ [newline]
             ++ lit "__meson_project_buildoption_choices () {" ++ [newline]
             ++ statement ++ [newline] ++ lit "}" ++ [newline]))
  /\ main (sample_world JNull) [lit "--" ++ [56448%N]] (Effects [] [])
     = (Err (UnicodeEncodeError
               (lit "  _message 'cannot complete: ValueError: "
                  ++ lit "unknown completion mode: " ++ [56448%N; squote])),
        Effects [] (lit "__meson_project_buildoptions () {" ++ [newline]))
  /\ run (sample_world JNull) [lit "--" ++ [56448%N]]
     = (Ok 1%Z,
        Effects [] (lit "__meson_project_buildoptions () {" ++ [newline])).
Proof.
  cbv zeta. repeat split.
Qed.

Lemma usage_failure_reads_nothing_witness :
  last_flag [lit "build"; lit "--targets"] <> Some (lit "buildoptions")
  /\ fst (run (sample_world JNull) [lit "build"; lit "--targets"]) = Ok 1%Z
  /\ events (snd (run (sample_world JNull) [lit "build"; lit "--targets"]))
     = [].
Proof.
  assert (H : last_flag [lit "build"; lit "--targets"]
              <> Some (lit "buildoptions"))
    by (vm_compute; discriminate).
  split; [exact H|].
  exact (proj2 (@usage_failure_reads_nothing sample_runtime
                  (sample_world JNull) [lit "build"; lit "--targets"] H)).
Defined.

(** C9 as stated fails: a mode flag that is not buildoptions does no harm
    when a later flag says buildoptions; standard input is read and the
    run exits with status 0. *)
Lemma overridden_flag_is_no_failure :
  let argv := [lit "--targets"; lit "--buildoptions"] in
  In (lit "targets") (mode_flags argv)
  /\ lit "targets" <> lit "buildoptions"
  /\ fst (run (sample_world (JArr [])) argv) = Ok 0%Z
  /\ events (snd (run (sample_world (JArr [])) argv))
     = [EvRead Stdin; EvClose Stdin].
Proof.
  cbv zeta. split; [now left|]. split; [discriminate|].
  split; reflexivity.
Qed.

(** The rows of the four sample records. *)
Lemma sample_rows (rows : list row) :
  Forall2 (reads (rt := sample_runtime))
    [sample_combo; sample_bool; sample_string;
     sample_option "opt_bool" "string" (JStr (lit "y")) "core" "again"]
    rows ->
  exists r1 r2 r3 r4,
    rows = [r1; r2; r3; r4]
    /\ map row_section rows = [lit "core"; lit "user"; lit "dirs"; lit "core"]
    /\ map row_name rows
       = [lit "opt_combo"; lit "opt_bool"; lit "prefix"; lit "opt_bool"].
Proof.
  intro HR.
  inversion HR as [|o1 r1 l1 rs1 R1 HR1]; subst.
  inversion HR1 as [|o2 r2 l2 rs2 R2 HR2]; subst.
  inversion HR2 as [|o3 r3 l3 rs3 R3 HR3]; subst.
  inversion HR3 as [|o4 r4 l4 rs4 R4 HR4]; subst.
  inversion HR4; subst.
  exists r1, r2, r3, r4. split; [reflexivity|].
  cbn [map]. split.
  - now rewrite (@reads_label _ _ _ (lit "core") R1 eq_refl),
      (@reads_label _ _ _ (lit "user") R2 eq_refl),
      (@reads_label _ _ _ (lit "dirs") R3 eq_refl),
      (@reads_label _ _ _ (lit "core") R4 eq_refl).
  - now rewrite (@reads_name _ _ _ (lit "opt_combo") R1 eq_refl),
      (@reads_name _ _ _ (lit "opt_bool") R2 eq_refl),
      (@reads_name _ _ _ (lit "prefix") R3 eq_refl),
      (@reads_name _ _ _ (lit "opt_bool") R4 eq_refl).
Qed.

Lemma sections_user_first_witness :
  complete_build_options (rt := sample_runtime) sample_input = Ok sample_output
  /\ exists rows : list row,
       Forall2 (reads (rt := sample_runtime))
         [sample_combo; sample_bool; sample_string;
          sample_option "opt_bool" "string" (JStr (lit "y")) "core" "again"]
         rows
       /\ map row_section rows
          = [lit "core"; lit "user"; lit "dirs"; lit "core"]
       /\ section_order (map row_section rows)
          = [lit "user"; lit "core"; lit "dirs"]
       /\ exists rest : str,
            sample_output
            = lit "__meson_project_buildoptions() {" ++ [newline]
                ++ lit "  # This function loops over tag labels itself."
                ++ [newline]
                ++ lit "  local -a __ndescgroup_user=(" ++ [newline] ++ rest.
Proof.
  split; [reflexivity|].
  destruct (@sections_user_first sample_runtime sample_input
              [sample_combo; sample_bool; sample_string;
               sample_option "opt_bool" "string" (JStr (lit "y")) "core"
                 "again"]
              sample_output eq_refl eq_refl)
    as (rows & HR & (tail & Hout) & _).
  exists rows. split; [exact HR|].
  destruct (sample_rows HR) as (r1 & r2 & r3 & r4 & _ & Hs & _).
  split; [exact Hs|]. split; [now rewrite Hs|].
  rewrite Hs in Hout. cbn [section_order existsb str_eqb] in Hout.
  eexists. rewrite Hout. reflexivity.
Defined.

Lemma duplicate_names_witness :
  complete_build_options (rt := sample_runtime) sample_input = Ok sample_output
  /\ exists r1 r2 r3 r4 : row,
       Forall2 (reads (rt := sample_runtime))
         [sample_combo; sample_bool; sample_string;
          sample_option "opt_bool" "string" (JStr (lit "y")) "core" "again"]
         [r1; r2; r3; r4]
       /\ row_name r2 = lit "opt_bool"
       /\ row_name r4 = lit "opt_bool"
       /\ first_seen (map row_name [r1; r2; r3; r4])
          = [lit "opt_combo"; lit "opt_bool"; lit "prefix"]
       /\ last (map row_branch
                  (filter (fun r => str_eqb (row_name r) (lit "opt_bool"))
                     [r1; r2; r3; r4])) []
          = row_branch r4.
Proof.
  split; [reflexivity|].
  destruct (@duplicate_names sample_runtime sample_input
              [sample_combo; sample_bool; sample_string;
               sample_option "opt_bool" "string" (JStr (lit "y")) "core"
                 "again"]
              sample_output eq_refl eq_refl)
    as (rows & HR & _ & _ & _ & _ & _ & Hlast).
  destruct (sample_rows HR) as (r1 & r2 & r3 & r4 & -> & _ & Hn).
  exists r1, r2, r3, r4. split; [exact HR|].
  cbn [map] in Hn. injection Hn as Hn1 Hn2 Hn3 Hn4.
  split; [exact Hn2|]. split; [exact Hn4|].
  split; [cbn [map]; now rewrite Hn1, Hn2, Hn3, Hn4|].
  rewrite <- Hn4.
  apply (Hlast [r1; r2; r3] r4 []); [reflexivity|].
  intros [].
Defined.

(** C1 fails on the code: the name of a record goes into the pattern of
    its dispatch branch between double quotes as it is, neither through
    [quote] nor through [zsh_tag], so the shell expands what it holds. *)
Theorem case_pattern_holds_raw_name :
  (exists sections block,
     collect (rt := sample_runtime) (JArr [sample_hostile])
     = Ok (sections,
           [(lit "$(id)",
             lit "  (" ++ [dquote] ++ lit "$(id)" ++ [dquote] ++ lit ")"
               ++ [newline] ++ block ++ [newline] ++ lit "  ;;")]))
  /\ quote (lit "$(id)") = lit "'$(id)'"
  /\ zsh_tag (lit "$(id)") = lit "--id-".
Proof.
  split; [|split; reflexivity].
  eexists _, (lit "    descr=d" ++ [newline]
                ++ lit "    _message -e build-option-values "
                ++ lit "${(qqq)descr//\%/%%}' (string)'").
  reflexivity.
Qed.

(** * Further properties *)

(** ** Tags *)





(** ** Colons *)

Lemma escape_colons_escaped (s : str) :
  forall b, colons_escaped b (escape_colons b s) = true.
Proof.
  induction s as [|c t IH]; intro b; [reflexivity|].
  cbn [escape_colons].
  destruct (N.eqb_spec c colon) as [->|Hc].
  - destruct b; cbn [app colons_escaped];
      change (colon =? colon)%N with true;
      change (backslash =? colon)%N with false;
      change (backslash =? backslash)%N with true;
      cbn [andb colons_escaped];
      change (colon =? colon)%N with true; cbn [andb]; apply IH.
  - cbn [colons_escaped].
    replace (c =? colon)%N with false
      by (symmetry; apply N.eqb_neq; congruence).
    apply IH.
Qed.

Lemma escape_colons_fixed (s : str) :
  forall b, colons_escaped b s = true -> escape_colons b s = s.
Proof.
  induction s as [|c t IH]; intro b; [reflexivity|].
  cbn [colons_escaped escape_colons].
  destruct (c =? colon)%N eqn:E.
  - apply N.eqb_eq in E. subst c. intro H.
    apply andb_true_iff in H. destruct H as [-> H].
    cbn [app]. now rewrite IH.
  - intro H. now rewrite IH.
Qed.

(** X2: after [fsemic] every colon has a backslash right before it, and
    [fsemic] leaves a string as it is exactly when that holds already. *)
Theorem fsemic_escapes_every_colon (s : str) :
  colons_escaped false (fsemic s) = true
  /\ (fsemic s = s <-> colons_escaped false s = true).
Proof.
  rewrite fsemic_escape_colons. split; [apply escape_colons_escaped|].
  split.
  - intro H. rewrite <- H. apply escape_colons_escaped.
  - apply escape_colons_fixed.
Qed.

Lemma dsemic_escaped (s : str) :
  forall b, colons_escaped b (dsemic s) = true.
Proof.
  unfold dsemic. rewrite replace_char.
  induction s as [|c t IH]; intro b; [reflexivity|].
  cbn [flat_map].
  destruct (N.eqb_spec c colon) as [->|Hc].
  - cbn [app colons_escaped].
    change (backslash =? colon)%N with false.
    change (backslash =? backslash)%N with true.
    change (colon =? colon)%N with true.
    cbn [andb]. apply IH.
  - cbn [app colons_escaped].
    replace (c =? colon)%N with false
      by (symmetry; apply N.eqb_neq; congruence).
    apply IH.
Qed.

Lemma ends_with_backslash_snoc (p : str) (c : char) :
  forall b, ends_with_backslash b (p ++ [c]) = (c =? backslash)%N.
Proof.
  induction p as [|x t IH]; intro b; [reflexivity|].
  cbn [app ends_with_backslash]. apply IH.
Qed.

Lemma ends_with_backslash_spec (s : str) :
  ends_with_backslash false s = false <-> forall p, s <> p ++ [backslash].
Proof.
  induction s as [|c p _] using rev_ind.
  - split; [intros _ [|? ?]; discriminate | reflexivity].
  - rewrite ends_with_backslash_snoc. split.
    + intros H q E. apply app_inj_tail in E. destruct E as [_ ->].
      discriminate H.
    + intro H. apply N.eqb_neq. intros ->. now apply (H p).
Qed.

Lemma escape_colons_end (s : str) :
  forall b,
    ends_with_backslash b (escape_colons b s) = ends_with_backslash b s.
Proof.
  induction s as [|c t IH]; intro b; [reflexivity|].
  cbn [escape_colons ends_with_backslash].
  destruct (N.eqb_spec c colon) as [->|Hc].
  - change (colon =? backslash)%N with false.
    destruct b; cbn [app ends_with_backslash];
      change (colon =? backslash)%N with false;
      change (backslash =? backslash)%N with true;
      cbn [ends_with_backslash];
      change (colon =? backslash)%N with false; apply IH.
  - cbn [ends_with_backslash]. apply IH.
Qed.

(** Before a separating colon, a text whose colons are all escaped is
    passed over whole. *)
Lemma split_after_escaped (s r : str) :
  forall b,
    colons_escaped b s = true ->
    split_at_bare_colon b (s ++ colon :: r)
    = if ends_with_backslash b s
      then match split_at_bare_colon false r with
           | Some (a, r') => Some (s ++ colon :: a, r')
           | None => None
           end
      else Some (s, r).
Proof.
  induction s as [|c t IH]; intros b H.
  - cbn [app split_at_bare_colon ends_with_backslash].
    change (colon =? colon)%N with true.
    change (colon =? backslash)%N with false.
    destruct b; reflexivity.
  - cbn [app split_at_bare_colon ends_with_backslash colons_escaped] in *.
    destruct (c =? colon)%N eqn:E.
    + apply andb_true_iff in H. destruct H as [-> H].
      cbn [negb andb]. apply N.eqb_eq in E. subst c.
      change (colon =? backslash)%N with false.
      rewrite (IH false H).
      destruct (ends_with_backslash false t); [|reflexivity].
      destruct (split_at_bare_colon false r) as [[a r']|]; reflexivity.
    + cbn [andb]. rewrite (IH _ H).
      destruct (ends_with_backslash (c =? backslash)%N t); [|reflexivity].
      destruct (split_at_bare_colon false r) as [[a r']|]; reflexivity.
Qed.

(** X3: in a describe spec the first colon without a backslash before it
    is the separator, so the spec splits back into the escaped name and
    the escaped description, exactly when the name does not end with a
    backslash; a name that ends with one escapes the separator. *)
Theorem describe_spec_separator (name descr : str) :
  split_at_bare_colon false (describe_spec name descr)
  = Some (fsemic name, fsemic descr)
  <-> forall p, name <> p ++ [backslash].
Proof.
  unfold describe_spec. rewrite !fsemic_escape_colons.
  change (lit ":" ++ escape_colons false descr)
    with (colon :: escape_colons false descr).
  rewrite split_after_escaped by apply escape_colons_escaped.
  rewrite escape_colons_end, <- ends_with_backslash_spec.
  destruct (ends_with_backslash false name); split; try easy.
  destruct (split_at_bare_colon false (escape_colons false descr))
    as [[a r']|]; [|discriminate].
  intros [= H _]. exfalso.
  apply (f_equal (@List.length char)) in H.
  rewrite length_app in H. cbn [List.length] in H. lia.
Qed.

Lemma dsemic_length (s : str) :
  List.length (dsemic s) = List.length s + 2 * count_colons s.
Proof.
  unfold dsemic, count_colons. rewrite replace_char.
  induction s as [|c t IH]; [reflexivity|].
  cbn [flat_map filter]. rewrite length_app, IH.
  destruct (c =? colon)%N; cbn [List.length]; lia.
Qed.

(** X4: rule A leaves the output of rule B as it is, and rule B makes a
    string two characters longer for each of its colons. *)
Theorem fsemic_after_dsemic (s : str) :
  fsemic (dsemic s) = dsemic s
  /\ List.length (dsemic s) = List.length s + 2 * count_colons s.
Proof.
  split; [|apply dsemic_length].
  rewrite fsemic_escape_colons. apply escape_colons_fixed, dsemic_escaped.
Qed.

(** ** Octal literals and integer hints *)

Lemma fold_digit_chars (b : N) (l : list N) :
  forall acc,
    fold_left (fun a c => (b * a + (c - 48))%N) (map digit_char l) acc
    = fold_left (fun a d => (b * a + d)%N) l acc.
Proof.
  induction l as [|d t IH]; intro acc; [reflexivity|].
  cbn [map fold_left]. rewrite IH. f_equal. unfold digit_char. lia.
Qed.

Lemma fold_value_le (b : N) (l : list N) :
  fold_left (fun a d => (b * a + d)%N) (rev l) 0%N = value_le b l.
Proof.
  induction l as [|d t IH]; [reflexivity|].
  cbn [rev value_le]. rewrite fold_left_app, IH. cbn [fold_left]. lia.
Qed.

Lemma octal_value_zeros (k : nat) (s : str) :
  octal_value (repeat (digit_char 0) k ++ s) = octal_value s.
Proof.
  unfold octal_value. induction k as [|k IH]; [reflexivity|].
  cbn [repeat app fold_left]. exact IH.
Qed.

Lemma octal_value_literal (n : N) : octal_value (octal_literal n) = n.
Proof.
  unfold octal_literal, zero_pad.
  change (lit "0") with (repeat (digit_char 0) 1).
  rewrite !octal_value_zeros.
  destruct (@numeral_spec 8 n) as (ds & -> & _ & Hv); [lia|].
  unfold octal_value. now rewrite fold_digit_chars, fold_value_le.
Qed.

Lemma numeral_length_small (n : N) :
  (n < 512)%N -> (List.length (numeral 8 n) <= 3)%nat.
Proof.
  intro Hn. destruct (@numeral_spec 8 n) as (ds & -> & Hc & Hv); [lia|].
  rewrite length_map, length_rev.
  destruct ds as [|d t]; [easy|]. cbn [canonical] in Hc.
  destruct Hc as [Hd Ht]. destruct t as [|d' t']; [cbn; lia|].
  destruct Ht as [Ht Hz].
  assert (Hb := @canonical_lower_bound 8 (d' :: t') ltac:(lia) Ht Hz).
  change (value_le 8 (d :: d' :: t'))
    with (d + 8 * value_le 8 (d' :: t'))%N in Hv.
  destruct t' as [|d'' t'']; [cbn; lia|].
  destruct t'' as [|d3 t3]; [cbn; lia|]. exfalso.
  assert (H : (8 ^ 2 <= 8 ^ N.of_nat (List.length (d' :: d'' :: d3 :: t3) - 1))%N).
  { apply N.pow_le_mono_r; [lia|]. cbn [List.length]. lia. }
  change (8 ^ 2)%N with 64%N in H.
  set (v := value_le 8 (d' :: d'' :: d3 :: t3)) in *.
  set (p := (8 ^ N.of_nat (List.length (d' :: d'' :: d3 :: t3) - 1))%N) in *.
  lia.
Qed.

Lemma numeral_octal_digits (n : N) :
  forallb is_octal_digit (numeral 8 n) = true.
Proof.
  destruct (@numeral_spec 8 n) as (ds & -> & Hc & _); [lia|].
  apply forallb_forall. intros c Hin.
  apply in_map_iff in Hin. destruct Hin as (d & <- & Hd).
  apply in_rev in Hd.
  assert (d < 8)%N
    by (exact (proj1 (Forall_forall _ _) (canonical_Forall _ _ Hc) d Hd)).
  unfold is_octal_digit, digit_char.
  apply andb_true_intro. split; apply N.leb_le; lia.
Qed.

Lemma numeral_nonempty (b n : N) : (2 <= b)%N -> numeral b n <> [].
Proof.
  intro Hb. destruct (@numeral_spec b n Hb) as (ds & -> & Hc & _).
  destruct ds as [|d t]; [easy|]. cbn [rev map].
  rewrite map_app. cbn [map]. intro E. now apply app_eq_nil in E.
Qed.

(** [int] refuses a numeral with a letter in front. *)
Lemma int_ascii_letter_first (c : char) (ds : list N) :
  is_digit c = false -> is_space c = false ->
  (c =? 45)%N = false -> (c =? 43)%N = false -> (c =? 95)%N = false ->
  Forall (fun d => (d < 10)%N) ds -> ds <> [] ->
  int_ascii (c :: map digit_char ds) = None.
Proof.
  intros Hdig Hsp Hmi Hpl Hus HF Hne. unfold int_ascii.
  cbn [dropwhile]. rewrite Hsp, Hmi, Hpl.
  assert (Hrev : rev (c :: map digit_char ds)
                 = map digit_char (rev ds) ++ [c])
    by (cbn [rev]; now rewrite map_rev).
  rewrite Hrev.
  destruct (rev ds) as [|m ms] eqn:E.
  - exfalso. apply Hne. now rewrite <- (rev_involutive ds), E.
  - assert (Hm : (m < 10)%N).
    { apply (proj1 (Forall_forall _ _) HF). apply in_rev. rewrite E. now left. }
    destruct (digit_char_props Hm) as (_ & Hsp' & _).
    cbn [map app dropwhile]. rewrite Hsp'.
    change (digit_char m :: map digit_char ms ++ [c])
      with (map digit_char (m :: ms) ++ [c]).
    rewrite <- Hrev, rev_involutive.
    cbn [int_digits]. now rewrite Hdig, Hus.
Qed.

Lemma int_ascii_minus (ds : list N) :
  Forall (fun d => (d < 10)%N) ds ->
  ds <> [] ->
  int_ascii (45%N :: map digit_char ds)
  = Some (- Z.of_N (fold_left (fun a d => (10 * a + d)%N) ds 0%N))%Z.
Proof.
  intros HF Hne. unfold int_ascii.
  change (dropwhile is_space (45%N :: map digit_char ds))
    with (45%N :: map digit_char ds).
  cbv iota beta. rewrite N.eqb_refl. cbv iota beta.
  rewrite <- map_rev, dropwhile_digits by (now apply Forall_rev).
  rewrite map_rev, rev_involutive.
  rewrite int_digits_numeral; [reflexivity | exact HF | now left].
Qed.

(** [int] reads the decimal text of an integer back. *)
Lemma int_ascii_str_of_int (z : Z) : int_ascii (str_of_int z) = Some z.
Proof.
  unfold str_of_int.
  destruct (@numeral_spec 10 (Z.abs_N z)) as (ds & E & Hc & Hv); [lia|].
  assert (HF := canonical_Forall _ _ Hc).
  destruct (Z.ltb_spec z 0) as [Hneg|Hpos].
  - rewrite E.
    change (lit "-" ++ map digit_char (rev ds))
      with (45%N :: map digit_char (rev ds)).
    rewrite int_ascii_minus.
    + rewrite fold_left_value_le, Hv. f_equal. lia.
    + now apply Forall_rev.
    + intro E'. apply (f_equal (@rev N)) in E'.
      rewrite rev_involutive in E'. subst ds. exact Hc.
  - cbn [app]. rewrite E, int_ascii_numeral by exact Hc.
    rewrite Hv. f_equal. lia.
Qed.

Section FurtherProperties.

Context {rt : Runtime}.

(** X5: [c_style_octal] on every value.  An integer that is not negative
    gives its literal, unless [int] refuses its octal numeral for its
    length: more than 640 digits and more than the limit, when there is
    one.  A boolean gives 0000 or 0001.  A negative integer raises
    [ValueError]: what is left of [oct] starts with the letter o, an
    invalid literal, and the message shows 200 characters of its [repr] at
    most.  Anything else raises [TypeError]. *)
Theorem c_style_octal_cases (i : value) :
  c_style_octal i
  = match i with
    | JInt v =>
        if (v <? 0)%Z
        then Err (ValueError
                    (lit "invalid literal for int() with base 10: "
                       ++ firstn 200
                            (repr (JStr (lit "o" ++ numeral 8 (Z.abs_N v))))))
        else
          let digits := List.length (numeral 8 (Z.to_N v)) in
          if Nat.ltb 640 digits && Nat.ltb 0 int_max_str_digits
             && Nat.ltb int_max_str_digits digits
          then Err (ValueError
                      (lit "Exceeds the limit ("
                         ++ str_of_int (Z.of_nat int_max_str_digits)
                         ++ lit " digits) for integer string conversion: "
                         ++ lit "value has " ++ str_of_int (Z.of_nat digits)
                         ++ lit " digits; use sys.set_int_max_str_digits() "
                         ++ lit "to increase the limit"))
          else Ok (octal_literal (Z.to_N v))
    | JBool b => Ok (if b then lit "0001" else lit "0000")
    | _ => Err TypeError
    end.
Proof.
  destruct i as [|b|v|f|s|l|kv]; try reflexivity.
  - destruct b; reflexivity.
  - destruct (Z.ltb_spec v 0) as [Hneg|Hpos].
    + unfold c_style_octal, oct.
      replace (v <? 0)%Z with true by (symmetry; apply Z.ltb_lt; exact Hneg).
      cbn [bind lit list_ascii_of_string map app skipn].
      unfold int_of_str. cbn [forallb].
      rewrite numeral_ascii by lia. reflexivity.
    + rewrite c_style_octal_nonneg by exact Hpos. cbv zeta.
      unfold exceeds_limit, limit_message.
      destruct (Nat.ltb 640 (List.length (numeral 8 (Z.to_N v)))
                && Nat.ltb 0 int_max_str_digits
                && Nat.ltb int_max_str_digits
                     (List.length (numeral 8 (Z.to_N v)))); reflexivity.
Qed.

(** X6: the literal of a mask [v] that is not negative and under the
    power of eight that the limit of [int] allows holds octal digits only
    and stands for [v] when read in base eight; it has four characters up
    to octal 777 and never fewer. *)
Theorem c_style_octal_reads_back (v : Z) :
  (0 <= v)%Z ->
  int_max_str_digits = 0%nat
  \/ (v < 8 ^ Z.of_nat (Nat.max 640 int_max_str_digits))%Z ->
  exists s,
    c_style_octal (JInt v) = Ok s
    /\ octal_value s = Z.to_N v
    /\ forallb is_octal_digit s = true
    /\ (4 <= List.length s)%nat
    /\ ((v < 512)%Z -> List.length s = 4%nat).
Proof.
  intros Hv Hlim. exists (octal_literal (Z.to_N v)).
  split; [now rewrite c_style_octal_nonneg, octal_within_limit|].
  split; [apply octal_value_literal|].
  unfold octal_literal, zero_pad. split; [|split].
  - cbn [lit list_ascii_of_string map app forallb].
    rewrite forallb_app, numeral_octal_digits, andb_true_r.
    apply forallb_forall. intros c Hc. apply repeat_spec in Hc. now subst.
  - rewrite !length_app, repeat_length. cbn [lit list_ascii_of_string map List.length]. lia.
  - intro Hlt. rewrite !length_app, repeat_length.
    assert (H := @numeral_length_small (Z.to_N v) ltac:(lia)).
    cbn [lit list_ascii_of_string map List.length]. lia.
Qed.

(** X7: for an option of type integer, other than install_umask, with an
    integer value the hint is the decimal text of the value in angle
    brackets, and [int] reads that text back as the value. *)
Theorem integer_hint_reads_back (o n : value) (z : Z) :
  getitem o (lit "value") = Ok (JInt z) ->
  getitem o (lit "type") = Ok (JStr (lit "integer")) ->
  getitem o (lit "name") = Ok n ->
  is_str n (lit "install_umask") = false ->
  generate_hint o = Ok (lit "<" ++ str_of_int z ++ lit ">")
  /\ int_ascii (str_of_int z) = Some z.
Proof.
  intros Hv Ht Hn Hname. split; [|apply int_ascii_str_of_int].
  unfold generate_hint. rewrite Hv, Ht. cbn [bind].
  change (is_str (JStr (lit "integer")) (lit "boolean")) with false.
  cbv iota. rewrite Hn. cbn [bind]. rewrite Hname. reflexivity.
Qed.

(** ** Records that cannot be read *)

Lemma mapM_failure {A B : Type} (f : A -> result B) (before after : list A)
    (a : A) (bs : list B) (e : exn) :
  mapM f before = Ok bs -> f a = Err e ->
  mapM f (before ++ a :: after) = Err e.
Proof.
  revert bs. induction before as [|x t IH]; intros bs Hb Ha.
  - cbn [app mapM]. now rewrite Ha.
  - cbn [app mapM] in *. destruct (f x) as [b|]; [|discriminate].
    cbn [bind] in *. destruct (mapM f t) as [bs'|]; [|discriminate].
    now rewrite (IH bs' eq_refl Ha).
Qed.

(** X8: generation is all or nothing: the first record the loop cannot
    read decides, its exception is the one [complete_build_options]
    raises, whatever the records after it are. *)
Theorem first_failure_decides (i_data : value) (before after : list value)
    (o : value) (items : list item) (e : exn) :
  py_iter i_data = Ok (before ++ o :: after) ->
  mapM read_item before = Ok items ->
  read_item o = Err e ->
  complete_build_options i_data = Err e
  /\ forall st, loop_body st o = Err e.
Proof.
  intros Hopts Hb Ho. split.
  - unfold complete_build_options, collect. rewrite Hopts. cbn [bind].
    rewrite foldM_loop_body,
      (@mapM_failure _ _ read_item before after o items e Hb Ho).
    reflexivity.
  - intro st. rewrite loop_body_read, Ho. reflexivity.
Qed.

(** X9: a record that lacks one of the keys the loop reads raises
    [KeyError] for the first of them in the order section, name,
    description, value, type; a record that is not an object raises
    [TypeError]. *)
Theorem missing_key_raises (st : sections * switches) (opt : value) :
  match opt with
  | JObj kv =>
      forall k, first_missing kv = Some k ->
                loop_body st opt = Err (KeyError k)
  | _ => loop_body st opt = Err TypeError
  end.
Proof.
  destruct opt as [|b|z|f|s|l|kv]; try (destruct st; reflexivity).
  intros k. unfold first_missing, required_keys. cbn [find].
  destruct st as [bs sw]. unfold loop_body, generate_hint, getitem.
  destruct (dict_get str_eqb (lit "section") kv); [|now intros [= <-]].
  destruct (dict_get str_eqb (lit "name") kv); [|now intros [= <-]].
  destruct (dict_get str_eqb (lit "description") kv); [|now intros [= <-]].
  destruct (dict_get str_eqb (lit "value") kv); [|now intros [= <-]].
  destruct (dict_get str_eqb (lit "type") kv); [discriminate|].
  now intros [= <-].
Qed.

(** X10: only a list brings records: an empty object and an empty string
    give the same text as an empty list, with no array and no branch but
    the catch-all; any other document that is not a list raises
    [TypeError]. *)
Theorem documents_other_than_lists (i_data : value) :
  complete_build_options (JArr [])
  = Ok (join [newline]
          [buildoptions_function [] []; buildoption_choices_function []])
  /\ match i_data with
     | JArr _ => True
     | JStr [] | JObj [] =>
         complete_build_options i_data = complete_build_options (JArr [])
     | _ => complete_build_options i_data = Err TypeError
     end.
Proof.
  split; [reflexivity|].
  destruct i_data as [|b|z|f|s|l|kv]; try reflexivity; try exact I.
  - destruct s; reflexivity.
  - destruct kv as [|[k v] kv]; reflexivity.
Qed.

(** ** The generator [user_first] *)

Lemma dict_pop_permutation {K V : Type} (eqb : K -> K -> bool) (k : K)
    (d : dict K V) :
  forall v d',
    dict_pop eqb k d = Some (v, d') ->
    exists k', eqb k k' = true /\ Permutation ((k', v) :: d') d.
Proof.
  induction d as [|[x w] t IH]; intros v d'; [discriminate|].
  cbn [dict_pop]. destruct (eqb k x) eqn:E.
  - intros [= <- <-]. exists x. split; [exact E | reflexivity].
  - destruct (dict_pop eqb k t) as [[u t']|]; [|discriminate].
    intros [= <- <-]. destruct (IH _ _ eq_refl) as (k' & Hk & HP).
    exists k'. split; [exact Hk|].
    rewrite perm_swap. now constructor.
Qed.

Lemma dict_pop_none {K V : Type} (eqb : K -> K -> bool) (k : K)
    (d : dict K V) :
  dict_get eqb k d = None -> dict_pop eqb k d = None.
Proof.
  induction d as [|[x w] t IH]; [reflexivity|].
  cbn [dict_get dict_pop]. destruct (eqb k x); [discriminate|].
  intro H. now rewrite (IH H).
Qed.

(** X16: [user_first] yields every item of the dictionary once, with its
    value, whatever the keys are; it changes nothing when no key is user,
    and yielding from its own result changes nothing any more. *)
Theorem user_first_keeps_items (d : sections) :
  Permutation (user_first d) d
  /\ user_first (user_first d) = user_first d
  /\ (dict_get key_eqb (JStr (lit "user")) d = None -> user_first d = d).
Proof.
  destruct (dict_pop key_eqb (JStr (lit "user")) d) as [[u dd]|] eqn:E.
  - assert (Huf : user_first d = (JStr (lit "user"), u) :: dd)
      by (unfold user_first; now rewrite E).
    rewrite Huf. split; [|split].
    + destruct (dict_pop_permutation _ _ _ E) as (k' & Hk & HP).
      apply str_key_eqb in Hk. now subst k'.
    + reflexivity.
    + intro H. now rewrite (dict_pop_none _ _ _ H) in E.
  - assert (Huf : user_first d = d) by (unfold user_first; now rewrite E).
    rewrite Huf. split; [reflexivity|]. split; [exact Huf | reflexivity].
Qed.

End FurtherProperties.

(** ** Arguments *)

Lemma scan_fold (argv : list str) :
  forall st,
    let r := fold_left scan_arg argv st in
    scan_builddir r
    = (if Nat.ltb 0 (scan_posopts st) then scan_builddir st
       else match hd_error (positionals argv) with
            | Some b => Some b
            | None => scan_builddir st
            end)
    /\ scan_posopts r
       = (if Nat.ltb 0 (scan_posopts st) then scan_posopts st
          else scan_posopts st + Nat.min 1 (List.length (positionals argv))).
Proof.
  induction argv as [|i t IH]; intro st; cbv zeta.
  - cbn [fold_left positionals filter hd_error List.length Nat.min].
    destruct (Nat.ltb 0 (scan_posopts st)); split; auto.
  - cbn [fold_left]. destruct (IH (scan_arg st i)) as [Hb Hp].
    rewrite Hb, Hp. clear Hb Hp IH. unfold positionals. cbn [filter].
    unfold scan_arg.
    destruct (startswith (lit "--") i); cbn [negb].
    + cbn [scan_posopts scan_builddir]. split; reflexivity.
    + destruct (Nat.ltb 0 (scan_posopts st)) eqn:El.
      * rewrite El. split; reflexivity.
      * cbn [scan_posopts scan_builddir hd_error List.length].
        apply Nat.ltb_ge in El.
        replace (scan_posopts st) with 0 by lia.
        cbn [Nat.add Nat.ltb Nat.leb]. split; [reflexivity|].
        now destruct (List.length _).
Qed.

(** X11: of the arguments of the helper, the first one that does not
    start with two hyphens is the build directory and the later ones are
    ignored, while of the flags the last one is the mode. *)
Theorem scan_argv_first_and_last (argv : list str) :
  scan_builddir (scan_argv argv) = hd_error (positionals argv)
  /\ scan_mode (scan_argv argv) = last_flag argv
  /\ scan_posopts (scan_argv argv)
     = Nat.min 1 (List.length (positionals argv)).
Proof.
  unfold scan_argv.
  destruct (scan_fold argv (Scan None None 0)) as [Hb Hp].
  cbn [scan_posopts scan_builddir Nat.ltb Nat.leb Nat.add] in Hb, Hp.
  split; [|split].
  - rewrite Hb. now destruct (hd_error (positionals argv)).
  - apply scan_mode_fold.
  - exact Hp.
Qed.

Lemma startswith_slash_rev (x : str) :
  startswith (lit "/") (rev (x ++ lit "meson-info")) = false.
Proof.
  rewrite rev_app_distr. reflexivity.
Qed.

(** X12: the file of a build directory is its path, a slash unless the
    path is empty or ends with one, and meson-info/intro-MODE.json. *)
Theorem path_from_builddir_text (builddir mode : str) :
  path_from_builddir builddir mode
  = builddir
      ++ (if match builddir with [] => true | _ => false end
             || startswith (lit "/") (rev builddir)
          then [] else lit "/")
      ++ lit "meson-info/intro-" ++ mode ++ lit ".json".
Proof.
  unfold path_from_builddir, path_join. cbn [fold_left].
  change (startswith (lit "/") (lit "meson-info")) with false.
  change (startswith (lit "/") (lit "intro-" ++ mode ++ lit ".json"))
    with false.
  cbv iota.
  destruct (match builddir with [] => true | _ => false end
            || startswith (lit "/") (rev builddir)) eqn:E.
  - rewrite startswith_slash_rev, orb_false_r.
    destruct (builddir ++ lit "meson-info") eqn:E'.
    + apply app_eq_nil in E'. destruct E' as [_ E']. discriminate E'.
    + rewrite <- E'. rewrite <- !app_assoc. reflexivity.
  - replace (builddir ++ lit "/" ++ lit "meson-info")
      with ((builddir ++ lit "/") ++ lit "meson-info")
      by (now rewrite <- app_assoc).
    rewrite startswith_slash_rev, orb_false_r.
    destruct ((builddir ++ lit "/") ++ lit "meson-info") eqn:E'.
    + apply app_eq_nil in E'. destruct E' as [_ E']. discriminate E'.
    + rewrite <- E'. rewrite <- !app_assoc. reflexivity.
Qed.

Section Runs.

Context {rt : Runtime}.

Local Open Scope result_scope.

Lemma getopts_stream (w : world) (argv : list str) (st : effects) :
  last_flag argv = Some (lit "buildoptions") ->
  _getopts w argv st
  = match hd_error (positionals argv) with
    | None => (Ok (Options Stdin (lit "buildoptions") None), st)
    | Some b =>
        if str_eqb b (lit "-")
        then (Ok (Options Stdin (lit "buildoptions") (Some b)), st)
        else
          let p := path_from_builddir b (lit "buildoptions") in
          match file_content w p with
          | Ok _ =>
              (Ok (Options (File p) (lit "buildoptions") (Some b)),
               Effects (events st ++ [EvOpen p]) (stdout st))
          | Err e => (Err e, Effects (events st ++ [EvOpen p]) (stdout st))
          end
    end.
Proof.
  intro Hmode. unfold _getopts.
  destruct (scan_fold argv (Scan None None 0)) as [Hb _].
  cbn [scan_posopts scan_builddir Nat.ltb Nat.leb] in Hb.
  assert (Hb' : scan_builddir (scan_argv argv) = hd_error (positionals argv))
    by (unfold scan_argv; rewrite Hb; now destruct (hd_error (positionals argv))).
  clear Hb. rename Hb' into Hb.
  assert (Hm := scan_mode_last_flag argv).
  rewrite Hm, Hmode, Hb.
  change (negb (str_eqb (lit "buildoptions") (lit "buildoptions"))) with false.
  cbv iota.
  destruct (hd_error (positionals argv)) as [b|]; [|destruct st; reflexivity].
  destruct (str_eqb b (lit "-")); [destruct st; reflexivity|].
  cbv zeta. unfold io_bind, open, log, io_lift, io_ret. cbn [events stdout].
  destruct (file_content w (path_from_builddir b (lit "buildoptions")));
    reflexivity.
Qed.

(** Standard output is taken to encode the ASCII characters, as the
    encodings of a terminal, a pipe or a file do. *)
Hypothesis stdout_ascii :
  forall c : char, (c <? 128)%N = true -> stdout_encodes c = true.

Lemma ascii_writable (s : str) :
  forallb (fun c => (c <? 128)%N) s = true -> writable s = true.
Proof.
  intro H. apply forallb_forall. intros c Hc. apply stdout_ascii.
  exact (proj1 (forallb_forall _ _) H c Hc).
Qed.

(** What the handler does with an exception: the diagnostics are all that
    may be out of reach of the encoding, and they come after the first
    line of the first stub. *)
Lemma emit_outcome (e : exn) (st : effects) :
  emit_message_on_exception e st
  = if writable (message_body (messages e))
    then (Ok tt, Effects (events st) (stdout st ++ stub_text e))
    else (Err (UnicodeEncodeError (message_body (messages e))),
          Effects (events st)
            (stdout st ++ lit "__meson_project_buildoptions () {"
               ++ [newline])).
Proof.
  destruct (writable (message_body (messages e))) eqn:E.
  - apply emit_writable. unfold stub_text. cbn [join].
    rewrite !writable_app, E.
    rewrite !ascii_writable by reflexivity. reflexivity.
  - unfold emit_message_on_exception, print. cbn [separated app].
    assert (Hb : forallb writable
                   [lit "__meson_project_buildoptions () {"; [newline]]
                 = true).
    { cbn [forallb]. rewrite !ascii_writable by reflexivity. reflexivity. }
    exact (@write_all_stops _
             [lit "__meson_project_buildoptions () {"; [newline]] _
             (message_body (messages e)) st Hb E).
Qed.

Lemma read_outcome (w : world) (s : stream) (st : effects) :
  with_stream s (load w s) st
  = ((c <- match s with
           | Stdin => Ok (stdin_content w)
           | File p => file_content w p
           end ;;
      json_load c),
     Effects (events st ++ [EvRead s; EvClose s]) (stdout st)).
Proof.
  unfold with_stream, load, io_bind, log, io_lift. cbn [events stdout].
  destruct (match s with
            | Stdin => Ok (stdin_content w)
            | File p => file_content w p
            end) as [c|e]; cbn [bind events stdout];
    now rewrite <- app_assoc.
Qed.

(** The handler after a failure that found standard output empty. *)
Lemma handled (e : exn) (st : effects) :
  stdout st = [] ->
  match io_bind (emit_message_on_exception e) (fun _ => io_ret 1%Z) st with
  | (Ok status, st') => (Ok status, st')
  | (Err _, st') => (Ok 1%Z, st')
  end
  = failure (events st) e.
Proof.
  intro Hout. unfold io_bind, failure. rewrite emit_outcome, Hout.
  destruct (writable (message_body (messages e))); reflexivity.
Qed.

(** The body of the [try], up to its print. *)
Lemma main_body_cases (w : world) (argv : list str) (st : effects) :
  main_body w argv st
  = match _getopts w argv st with
    | (Err e, st1) => (Err e, st1)
    | (Ok a, st1) =>
        let s := istream a in
        let st2 :=
          Effects (events st1 ++ [EvRead s; EvClose s]) (stdout st1) in
        match (jd <- (c <- match s with
                           | Stdin => Ok (stdin_content w)
                           | File p => file_content w p
                           end ;;
                      json_load c) ;;
               complete_build_options jd) with
        | Ok text => io_bind (print [text]) (fun _ => io_ret 0%Z) st2
        | Err e => (Err e, st2)
        end
    end.
Proof.
  unfold main_body. unfold io_bind at 1.
  destruct (_getopts w argv st) as [[a|e] st1]; [|reflexivity].
  unfold io_bind at 1. rewrite read_outcome. cbv zeta.
  destruct (c <- match istream a with
                 | Stdin => Ok (stdin_content w)
                 | File p => file_content w p
                 end ;;
            json_load c) as [jd|e]; cbn [bind]; [|reflexivity].
  unfold io_bind at 1. unfold io_lift.
  destruct (complete_build_options jd); reflexivity.
Qed.

(** What a run comes to, from the stream [_getopts] has chosen. *)
Lemma run_cases (w : world) (argv : list str) :
  run w argv
  = match _getopts w argv (Effects [] []) with
    | (Err e, st1) => failure (events st1) e
    | (Ok a, st1) =>
        let s := istream a in
        let evs := events st1 ++ [EvRead s; EvClose s] in
        match (jd <- (c <- match s with
                           | Stdin => Ok (stdin_content w)
                           | File p => file_content w p
                           end ;;
                      json_load c) ;;
               complete_build_options jd) with
        | Ok text =>
            if writable text
            then (Ok 0%Z, Effects evs (text ++ [newline]))
            else failure evs (UnicodeEncodeError text)
        | Err e => failure evs e
        end
    end.
Proof.
  unfold run, main, try_except. rewrite main_body_cases.
  destruct (_getopts w argv (Effects [] [])) as [[a|e] st1] eqn:E;
    assert (H1 : stdout st1 = [])
      by exact (@quiet_getopts _ w argv _ _ _ E);
    [|now apply handled].
  cbv zeta.
  destruct (jd <- (c <- match istream a with
                        | Stdin => Ok (stdin_content w)
                        | File p => file_content w p
                        end ;;
                   json_load c) ;;
            complete_build_options jd) as [text|e];
    [|now apply handled].
  unfold io_bind at 1. rewrite print_text, (stdout_ascii newline eq_refl).
  destruct (writable text); [|now apply handled].
  unfold io_ret. cbn [events stdout]. now rewrite H1.
Qed.

(** X13: with the mode buildoptions and no build directory, or a single
    hyphen for it, the run reads standard input and nothing else.  When
    the input decodes and generates a text that standard output can
    encode, the run prints the text and a newline and exits with status 0.
    Otherwise it exits with status 1, the failure being the exception of
    the decoding or of the generation, or the [UnicodeEncodeError] of the
    text, and it has printed the stubs for the failure or, when their
    diagnostics cannot be encoded either, the first line of the first stub
    only. *)
Theorem run_from_stdin (w : world) (argv : list str) :
  last_flag argv = Some (lit "buildoptions") ->
  hd_error (positionals argv) = None
  \/ hd_error (positionals argv) = Some (lit "-") ->
  let evs := [EvRead Stdin; EvClose Stdin] in
  let failed e :=
    (Ok 1%Z,
     Effects evs
       (if writable (message_body (messages e)) then stub_text e
        else lit "__meson_project_buildoptions () {" ++ [newline])) in
  run w argv
  = match (jd <- json_load (stdin_content w) ;; complete_build_options jd) with
    | Ok text =>
        if writable text then (Ok 0%Z, Effects evs (text ++ [newline]))
        else failed (UnicodeEncodeError text)
    | Err e => failed e
    end.
Proof.
  intros Hmode Hdir evs failed.
  rewrite run_cases, (@getopts_stream w argv _ Hmode).
  destruct Hdir as [-> | ->]; reflexivity.
Qed.

(** X14: with the mode buildoptions and a build directory, the run opens
    the file of that directory and never reads standard input.  When the
    file cannot be opened the run fails with that exception, having opened
    nothing else; otherwise the file is read and closed and its content
    decides as standard input would.  A run that fails exits with status 1
    and has printed the stubs for the failure or, when their diagnostics
    cannot be encoded, the first line of the first stub only. *)
Theorem run_from_file (w : world) (argv : list str) (b : str) :
  last_flag argv = Some (lit "buildoptions") ->
  hd_error (positionals argv) = Some b ->
  b <> lit "-" ->
  let p := path_from_builddir b (lit "buildoptions") in
  let failed evs e :=
    (Ok 1%Z,
     Effects evs
       (if writable (message_body (messages e)) then stub_text e
        else lit "__meson_project_buildoptions () {" ++ [newline])) in
  run w argv
  = match file_content w p with
    | Err e => failed [EvOpen p] e
    | Ok c =>
        let evs := [EvOpen p; EvRead (File p); EvClose (File p)] in
        match (jd <- json_load c ;; complete_build_options jd) with
        | Ok text =>
            if writable text then (Ok 0%Z, Effects evs (text ++ [newline]))
            else failed evs (UnicodeEncodeError text)
        | Err e => failed evs e
        end
    end.
Proof.
  intros Hmode Hdir Hb p failed.
  rewrite run_cases, (@getopts_stream w argv _ Hmode), Hdir.
  apply str_eqb_neq in Hb. rewrite Hb. cbv zeta. fold p.
  destruct (file_content w p) as [c|e] eqn:E; [|reflexivity].
  cbv zeta. cbn [istream events app]. rewrite E. reflexivity.
Qed.

(** X15: a run ends in one of two ways, and prints nothing else: it has
    printed a generated text that standard output can encode, and a
    newline, and exits with status 0; or it exits with status 1 and has
    printed the stubs for an exception or, when their diagnostics cannot
    be encoded, the first line of the first stub only. *)
Theorem run_outcome (w : world) (argv : list str) :
  (exists evs jd text,
     complete_build_options jd = Ok text
     /\ writable text = true
     /\ run w argv = (Ok 0%Z, Effects evs (text ++ [newline])))
  \/ (exists evs e,
        run w argv
        = (Ok 1%Z,
           Effects evs
             (if writable (message_body (messages e)) then stub_text e
              else lit "__meson_project_buildoptions () {" ++ [newline]))).
Proof.
  rewrite run_cases.
  destruct (_getopts w argv (Effects [] [])) as [[a|e] st1];
    [|right; now eexists _, e].
  cbv zeta.
  destruct (c <- match istream a with
                 | Stdin => Ok (stdin_content w)
                 | File p => file_content w p
                 end ;;
            json_load c) as [jd|e]; cbn [bind]; [|right; now eexists _, e].
  destruct (complete_build_options jd) as [text|e] eqn:E;
    [|right; now eexists _, e].
  destruct (writable text) eqn:Ew;
    [left; now eexists _, jd, text
    |right; now eexists _, (UnicodeEncodeError text)].
Qed.

End Runs.

(** ** The further properties at sample inputs *)

Lemma c_style_octal_reads_back_witness :
  (0 <= 18)%Z
  /\ (18 < 8 ^ Z.of_nat (Nat.max 640 (@int_max_str_digits sample_runtime)))%Z
  /\ exists s,
       c_style_octal (rt := sample_runtime) (JInt 18) = Ok s
       /\ octal_value s = 18%N
       /\ List.length s = 4%nat.
Proof.
  assert (H : (18 < 8 ^ Z.of_nat
                         (Nat.max 640 (@int_max_str_digits sample_runtime)))%Z)
    by (vm_compute; reflexivity).
  split; [lia|]. split; [exact H|].
  destruct (@c_style_octal_reads_back sample_runtime 18%Z ltac:(lia)
              (or_intror H))
    as (s & Hs & Hv & _ & _ & Hlen).
  exists s. split; [exact Hs|]. split; [exact Hv | apply Hlen; lia].
Defined.

Lemma integer_hint_reads_back_witness :
  getitem (rt := sample_runtime) sample_integer (lit "value") = Ok (JInt (-3))
  /\ generate_hint (rt := sample_runtime) sample_integer = Ok (lit "<-3>")
  /\ int_ascii (lit "-3") = Some (-3)%Z.
Proof.
  split; [reflexivity|].
  exact (@integer_hint_reads_back sample_runtime sample_integer
           (JStr (lit "jobs")) (-3)%Z eq_refl eq_refl eq_refl eq_refl).
Defined.

Lemma first_failure_decides_witness :
  read_item (rt := sample_runtime) sample_preserve = Err TypeError
  /\ complete_build_options (rt := sample_runtime)
       (JArr [sample_bool; sample_preserve; sample_string])
     = Err TypeError.
Proof.
  split; [reflexivity|].
  exact (proj1 (@first_failure_decides sample_runtime
                  (JArr [sample_bool; sample_preserve; sample_string])
                  [sample_bool] [sample_string] sample_preserve _ TypeError
                  eq_refl eq_refl eq_refl)).
Defined.

Lemma missing_key_raises_witness :
  first_missing
    [(lit "section", @JStr Empty_set (lit "core")); (lit "name", JStr (lit "n"))]
  = Some (lit "description")
  /\ loop_body (rt := sample_runtime) ([], [])
       (JObj [(lit "section", JStr (lit "core")); (lit "name", JStr (lit "n"))])
     = Err (KeyError (lit "description")).
Proof.
  split; [reflexivity|].
  exact (@missing_key_raises sample_runtime ([], [])
           (JObj [(lit "section", JStr (lit "core"));
                  (lit "name", JStr (lit "n"))])
           (lit "description") eq_refl).
Defined.

Lemma run_from_stdin_witness :
  last_flag [lit "--buildoptions"; lit "-"] = Some (lit "buildoptions")
  /\ run (sample_world sample_input) [lit "--buildoptions"; lit "-"]
     = (Ok 0%Z,
        Effects [EvRead Stdin; EvClose Stdin] (sample_output ++ [newline])).
Proof.
  split; [reflexivity|].
  exact (@run_from_stdin sample_runtime sample_stdout_ascii
           (sample_world sample_input)
           [lit "--buildoptions"; lit "-"] eq_refl (or_intror eq_refl)).
Defined.

Lemma run_from_file_witness :
  hd_error (positionals [lit "build/"; lit "--buildoptions"; lit "other"])
  = Some (lit "build/")
  /\ run (sample_world sample_input)
       [lit "build/"; lit "--buildoptions"; lit "other"]
     = (Ok 1%Z,
        Effects [EvOpen (lit "build/meson-info/intro-buildoptions.json")]
          (stub_text (rt := sample_runtime)
             (OSError (lit "build/meson-info/intro-buildoptions.json")))).
Proof.
  split; [reflexivity|].
  refine (@run_from_file sample_runtime sample_stdout_ascii
            (sample_world sample_input)
            [lit "build/"; lit "--buildoptions"; lit "other"] (lit "build/")
            eq_refl eq_refl _).
  discriminate.
Defined.

Lemma run_outcome_witness :
  let w := sample_world sample_input in
  let argv := [lit "--buildoptions"] in
  (exists evs jd text,
     complete_build_options (rt := sample_runtime) jd = Ok text
     /\ writable (rt := sample_runtime) text = true
     /\ run w argv = (Ok 0%Z, Effects evs (text ++ [newline])))
  \/ (exists evs e,
        run w argv
        = (Ok 1%Z,
           Effects evs
             (if writable (rt := sample_runtime)
                   (message_body (messages (rt := sample_runtime) e))
              then stub_text (rt := sample_runtime) e
              else lit "__meson_project_buildoptions () {" ++ [newline]))).
Proof.
  exact (@run_outcome sample_runtime sample_stdout_ascii
           (sample_world sample_input) [lit "--buildoptions"]).
Defined.
